(** * pixelcrate: the media preload / cache pipeline

    A shallow embedding of
    - [LRUCache] and [ThrottledPreloadQueue] of src/hooks/useImagePreloader.ts,
    - [VideoMetadataLRUCache] of src/lib/videoUtils.ts,
    - [ImageDecoderService] of the image decoder service,
    with the properties the specification states about them.

    Conventions.  A JavaScript [Map] is an insertion-ordered association list
    with pairwise distinct keys ([JSMap]); the [Set<string>] of the queue is a
    [gset string].  Strings are byte strings (URLs are ASCII), so the length
    of a string is both its [.length] and the size of its UTF-8 encoding.
    Numbers that are compared or subtracted are rationals, counters and sizes
    are natural numbers, times are integers (milliseconds).  Asynchronous
    code is a transition system with one event per run-to-completion block of
    the single UI thread; effects on objects outside the modelled state (the
    [src] of an image element) are returned as a list of the objects touched. *)

From Stdlib Require Import ZArith QArith Qabs Ascii.
From stdpp Require Import base list strings gmap fin_sets pretty.

#[local] Set Warnings "-clear-no-such-hyp".

Open Scope nat_scope.

(** ** JavaScript [Map] as an insertion-ordered association list *)

Module JSMap.
Section JSMap.
Context {K V : Type} `{EqDecision K}.

(** [Map.prototype.get]: [None] is [undefined]. *)
Fixpoint get (k : K) (m : list (K * V)) : option V :=
  match m with
  | [] => None
  | (k', v) :: r => if decide (k' = k) then Some v else get k r
  end.

(** [Map.prototype.has]. *)
Definition has (k : K) (m : list (K * V)) : bool :=
  match get k m with Some _ => true | None => false end.

(** [Map.prototype.delete]: the other entries keep their order. *)
Fixpoint delete (k : K) (m : list (K * V)) : list (K * V) :=
  match m with
  | [] => []
  | (k', v) :: r => if decide (k' = k) then r else (k', v) :: delete k r
  end.

(** [Map.prototype.set]: an existing key keeps its position, a new key is
    appended. *)
Fixpoint set (k : K) (v : V) (m : list (K * V)) : list (K * V) :=
  match m with
  | [] => [(k, v)]
  | (k', v') :: r =>
      if decide (k' = k) then (k, v) :: r else (k', v') :: set k v r
  end.

(** [m.keys().next().value]: the oldest key, [None] on an empty map. *)
Definition firstKey (m : list (K * V)) : option K :=
  match m with [] => None | (k, _) :: _ => Some k end.

Definition keys (m : list (K * V)) : list K := m.*1.
Definition values (m : list (K * V)) : list V := m.*2.

(** Well-formed maps hold every key once. *)
Definition wf (m : list (K * V)) : Prop := NoDup (keys m).

Lemma has_true_iff k m : has k m = true ↔ k ∈ keys m.
Proof.
  unfold has, keys. induction m as [|[k' v] r IH]; simpl.
  - split; [discriminate | intros Hin; inversion Hin].
  - destruct (decide (k' = k)) as [->|Hne].
    + split; [intros _; left | done].
    + rewrite IH. split; [by right |].
      intros Hin. apply elem_of_cons in Hin as [Heq|Hin]; [congruence | done].
Qed.

Lemma has_false_iff k m : has k m = false ↔ k ∉ keys m.
Proof.
  rewrite <- has_true_iff. destruct (has k m); naive_solver.
Qed.

Lemma get_None_iff k m : get k m = None ↔ k ∉ keys m.
Proof.
  rewrite <- has_false_iff. unfold has. destruct (get k m); split; done.
Qed.

Lemma delete_absent k m : k ∉ keys m → delete k m = m.
Proof.
  unfold keys. induction m as [|[k' v] r IH]; simpl; [done|].
  intros Hn. apply not_elem_of_cons in Hn as [Hne Hn].
  destruct (decide (k' = k)) as [->|_]; [done|]. by rewrite IH.
Qed.

Lemma keys_delete_subseteq k m : keys (delete k m) ⊆ keys m.
Proof.
  unfold keys. induction m as [|[k' v] r IH]; simpl; [done|].
  destruct (decide (k' = k)); set_solver.
Qed.

Lemma delete_wf k m : wf m → wf (delete k m).
Proof.
  unfold wf, keys. induction m as [|[k' v] r IH]; simpl; [done|].
  intros Hnd. apply NoDup_cons in Hnd as [Hk Hnd].
  destruct (decide (k' = k)); [done|].
  simpl. apply NoDup_cons. split; [|by apply IH].
  intros Hin. apply Hk. by apply (keys_delete_subseteq k r).
Qed.

Lemma delete_not_in k m : wf m → k ∉ keys (delete k m).
Proof.
  unfold wf, keys. induction m as [|[k' v] r IH]; simpl.
  - intros _ Hin. inversion Hin.
  - intros Hnd. apply NoDup_cons in Hnd as [Hk Hnd].
    destruct (decide (k' = k)) as [->|Hne]; [done|].
    simpl. apply not_elem_of_cons. split; [congruence | by apply IH].
Qed.

Lemma length_delete_present k m :
  k ∈ keys m → S (length (delete k m)) = length m.
Proof.
  unfold keys. induction m as [|[k' v] r IH]; simpl.
  - intros Hin. inversion Hin.
  - intros Hin. destruct (decide (k' = k)) as [->|Hne]; [done|].
    simpl. f_equal. apply IH.
    apply elem_of_cons in Hin as [Heq|Hin]; [congruence | done].
Qed.

Lemma set_absent k v m : k ∉ keys m → set k v m = m ++ [(k, v)].
Proof.
  unfold keys. induction m as [|[k' v'] r IH]; simpl; [done|].
  intros Hn. apply not_elem_of_cons in Hn as [Hne Hn].
  destruct (decide (k' = k)) as [->|_]; [done|]. by rewrite IH.
Qed.

Lemma keys_set_absent k v m : k ∉ keys m → keys (set k v m) = keys m ++ [k].
Proof.
  intros Hn. rewrite set_absent by done. unfold keys. by rewrite fmap_app.
Qed.

Lemma set_absent_wf k v m : wf m → k ∉ keys m → wf (set k v m).
Proof.
  intros Hwf Hn. unfold wf. rewrite keys_set_absent by done.
  apply NoDup_app. split; [done|]. split; [|apply NoDup_singleton].
  intros x Hx Hx'. apply list_elem_of_singleton in Hx'. by subst.
Qed.

Lemma firstKey_delete m :
  wf m → ∀ k, firstKey m = Some k → delete k m = tail m.
Proof.
  destruct m as [|[k' v] r]; simpl; [done|].
  intros _ k [= ->]. by rewrite decide_True.
Qed.
Lemma get_delete_ne i j m : i ≠ j → get i (delete j m) = get i m.
Proof.
  intros Hne. induction m as [|[k' v] r IH]; simpl; [done|].
  destruct (decide (k' = j)) as [->|Hj]; simpl.
  - by rewrite decide_False by done.
  - destruct (decide (k' = i)); [done | apply IH].
Qed.

Lemma get_delete_eq j m : wf m → get j (delete j m) = None.
Proof. intros Hwf. apply get_None_iff. by apply delete_not_in. Qed.

Lemma get_set_eq k v m : get k (set k v m) = Some v.
Proof.
  induction m as [|[k' v'] r IH]; simpl.
  - by rewrite decide_True.
  - destruct (decide (k' = k)); simpl.
    + by rewrite decide_True.
    + by rewrite decide_False.
Qed.

Lemma get_set_ne i k v m : i ≠ k → get i (set k v m) = get i m.
Proof.
  intros Hne. induction m as [|[k' v'] r IH]; simpl.
  - by rewrite decide_False by done.
  - destruct (decide (k' = k)) as [->|Hk]; simpl.
    + by rewrite !decide_False by done.
    + destruct (decide (k' = i)); [done | apply IH].
Qed.

(** An entry found by [get] is the one [delete] removes. *)
Lemma get_Some_perm k v m :
  get k m = Some v →
  keys m ≡ₚ k :: keys (delete k m) ∧ values m ≡ₚ v :: values (delete k m).
Proof.
  unfold keys, values. induction m as [|[k' v'] r IH]; simpl; [done|].
  destruct (decide (k' = k)) as [->|Hk].
  - intros [= ->]. done.
  - intros Hg. destruct (IH Hg) as [IHk IHv]. simpl. split.
    + rewrite IHk. apply Permutation_swap.
    + rewrite IHv. apply Permutation_swap.
Qed.

Lemma get_Some_values k v m : get k m = Some v → v ∈ values m.
Proof.
  intros Hg. destruct (get_Some_perm k v m Hg) as [_ Hv].
  rewrite Hv. by left.
Qed.

(** With pairwise distinct values, a value determines its key. *)
Lemma get_inj i j v m :
  NoDup (values m) → get i m = Some v → get j m = Some v → i = j.
Proof.
  intros Hnd Hi Hj. destruct (decide (i = j)) as [|Hne]; [done|].
  destruct (get_Some_perm i v m Hi) as [_ Hv].
  rewrite Hv in Hnd. apply NoDup_cons in Hnd as [Hnotin _].
  destruct Hnotin. apply (get_Some_values j).
  by rewrite get_delete_ne by done.
Qed.

Lemma values_set_absent k v m : k ∉ keys m → values (set k v m) = values m ++ [v].
Proof.
  intros Hn. rewrite set_absent by done. unfold values. by rewrite fmap_app.
Qed.
End JSMap.
End JSMap.

(** ** [class LRUCache<K, V>] (useImagePreloader.ts) *)

Module LRUCache.
Section LRUCache.
Context {K V : Type} `{EqDecision K}.

(** [value instanceof HTMLImageElement]. *)
Variable isHTMLImageElement : V → bool.

Record t := mk { cache : list (K * V); maxSize : nat }.

Definition new (maxSize : nat) : t := {| cache := []; maxSize := maxSize |}.

Definition size (c : t) : nat := length (cache c).

Definition has (k : K) (c : t) : bool := JSMap.has k (cache c).

(** The clean-up [value.src = ''; value.srcset = ''] is an effect on the
    image element; every operation returns the list of the values it
    cleaned up, in order. *)
Definition cleanup (v : V) : list V :=
  if isHTMLImageElement v then [v] else [].

(** [get(key)]: a hit moves the entry to the end. *)
Definition get (k : K) (c : t) : option V * t :=
  match JSMap.get k (cache c) with
  | Some v =>
      (Some v,
       {| cache := JSMap.set k v (JSMap.delete k (cache c));
          maxSize := maxSize c |})
  | None => (None, c)
  end.

(** [set(key, value)]. *)
Definition set (k : K) (v : V) (c : t) : t * list V :=
  let '(m, released) :=
    if JSMap.has k (cache c) then
      (* Update existing key (move to end) *)
      (JSMap.delete k (cache c), [])
    else if maxSize c <=? length (cache c) then
      (* Remove least recently used (first) entry *)
      match JSMap.firstKey (cache c) with
      | Some firstKey =>
          let removedValue := JSMap.get firstKey (cache c) in
          (JSMap.delete firstKey (cache c),
           match removedValue with
           | Some rv => cleanup rv
           | None => []
           end)
      | None => (cache c, [])
      end
    else (cache c, [])
  in
  ({| cache := JSMap.set k v m; maxSize := maxSize c |}, released).

(** [delete(key)]. *)
Definition delete (k : K) (c : t) : bool * t * list V :=
  let value := JSMap.get k (cache c) in
  let released := match value with Some v => cleanup v | None => [] end in
  (JSMap.has k (cache c),
   {| cache := JSMap.delete k (cache c); maxSize := maxSize c |},
   released).

(** [clear()]. *)
Definition clear (c : t) : t * list V :=
  ({| cache := []; maxSize := maxSize c |},
   flat_map cleanup (JSMap.values (cache c))).

Definition keys (c : t) : list K := JSMap.keys (cache c).

(** The invariant of a cache built by its own methods. *)
Definition wf (c : t) : Prop := JSMap.wf (cache c).

(** A sequence of method calls. *)
Inductive call : Type :=
| CallSet (k : K) (v : V)
| CallGet (k : K)
| CallHas (k : K)
| CallDelete (k : K)
| CallClear.

Definition step (c : t) (o : call) : t * list V :=
  match o with
  | CallSet k v => set k v c
  | CallGet k => ((get k c).2, [])
  | CallHas k => (c, [])
  | CallDelete k => let '(_, c', rel) := delete k c in (c', rel)
  | CallClear => clear c
  end.

(** State after a sequence of calls, with everything cleaned up on the way. *)
Fixpoint run (c : t) (os : list call) : t * list V :=
  match os with
  | [] => (c, [])
  | o :: os' =>
      let '(c1, r1) := step c o in
      let '(c2, r2) := run c1 os' in
      (c2, r1 ++ r2)
  end.

(** *** Basic facts *)

Lemma set_maxSize k v c : maxSize (set k v c).1 = maxSize c.
Proof.
  unfold set. destruct (JSMap.has k (cache c)); [done|].
  destruct (maxSize c <=? length (cache c)); [|done].
  by destruct (JSMap.firstKey (cache c)).
Qed.

Lemma set_present k v c :
  wf c → has k c = true →
  set k v c =
    ({| cache := JSMap.delete k (cache c) ++ [(k, v)];
        maxSize := maxSize c |}, []).
Proof.
  intros Hwf Hhas. unfold set, has in *. rewrite Hhas.
  by rewrite JSMap.set_absent by by apply JSMap.delete_not_in.
Qed.

Lemma set_new_room k v c :
  has k c = false → length (cache c) < maxSize c →
  set k v c = ({| cache := cache c ++ [(k, v)]; maxSize := maxSize c |}, []).
Proof.
  intros Hhas Hlt. unfold set, has in *. rewrite Hhas.
  destruct (Nat.leb_spec (maxSize c) (length (cache c))); [lia|].
  apply JSMap.has_false_iff in Hhas. by rewrite JSMap.set_absent.
Qed.

Lemma set_new_full k v c k0 v0 r :
  wf c → has k c = false → maxSize c ≤ length (cache c) →
  cache c = (k0, v0) :: r →
  set k v c =
    ({| cache := r ++ [(k, v)]; maxSize := maxSize c |}, cleanup v0).
Proof.
  intros Hwf Hhas Hle Hc. unfold set, has in *. rewrite Hhas.
  destruct (Nat.leb_spec (maxSize c) (length (cache c))); [|lia].
  apply JSMap.has_false_iff in Hhas.
  rewrite Hc in *. simpl. rewrite !decide_True by done.
  rewrite JSMap.set_absent; [done|].
  unfold JSMap.keys in *. set_solver.
Qed.

Lemma set_wf k v c : wf c → wf (set k v c).1.
Proof.
  intros Hwf. destruct (has k c) eqn:Hhas.
  - rewrite set_present by done. unfold wf. simpl.
    rewrite <- JSMap.set_absent by by apply JSMap.delete_not_in.
    apply JSMap.set_absent_wf;
      [by apply JSMap.delete_wf | by apply JSMap.delete_not_in].
  - destruct (Nat.leb_spec (maxSize c) (length (cache c))) as [Hle|Hlt].
    + destruct (cache c) as [|[k0 v0] r] eqn:Hc.
      * unfold set, has in *. rewrite Hhas, Hc. simpl.
        destruct (maxSize c <=? 0); apply NoDup_singleton.
      * rewrite (set_new_full k v c k0 v0 r) by (done || by rewrite Hc).
        unfold wf in *. simpl. rewrite Hc in Hwf.
        apply JSMap.has_false_iff in Hhas. unfold has in Hhas.
        rewrite Hc in Hhas.
        rewrite <- JSMap.set_absent
          by (unfold JSMap.keys in *; set_solver).
        apply JSMap.set_absent_wf.
        -- unfold JSMap.wf, JSMap.keys in *. simpl in Hwf.
           by apply NoDup_cons in Hwf as [_ ?].
        -- unfold JSMap.keys in *. set_solver.
    + rewrite set_new_room by done. unfold wf. simpl.
      apply JSMap.has_false_iff in Hhas.
      rewrite <- JSMap.set_absent by done.
      by apply JSMap.set_absent_wf.
Qed.

Lemma get_wf k c : wf c → wf (get k c).2.
Proof.
  intros Hwf. unfold get. destruct (JSMap.get k (cache c)); [|done].
  unfold wf. simpl.
  apply JSMap.set_absent_wf;
    [by apply JSMap.delete_wf | by apply JSMap.delete_not_in].
Qed.

Lemma get_size k c : wf c → size (get k c).2 = size c.
Proof.
  intros Hwf. unfold get, size.
  destruct (JSMap.get k (cache c)) eqn:Hg; [|done]. simpl.
  rewrite JSMap.set_absent by by apply JSMap.delete_not_in.
  rewrite length_app. simpl.
  assert (k ∈ JSMap.keys (cache c)) as Hin.
  { apply JSMap.has_true_iff. unfold JSMap.has. by rewrite Hg. }
  apply JSMap.length_delete_present in Hin. lia.
Qed.

Lemma step_wf c o : wf c → wf (step c o).1.
Proof.
  intros Hwf. destruct o as [k v|k|k|k|]; simpl.
  - by apply set_wf.
  - by apply get_wf.
  - done.
  - by apply JSMap.delete_wf.
  - apply NoDup_nil_2.
Qed.

Lemma step_maxSize c o : maxSize (step c o).1 = maxSize c.
Proof.
  destruct o as [k v|k|k|k|]; simpl; try done.
  - apply set_maxSize.
  - unfold get. by destruct (JSMap.get k (cache c)).
Qed.

(** A [set] never leaves more than [maxSize] entries behind, whatever the
    cache held before, as long as it was within its bound. *)
Lemma set_size_le k v c :
  wf c → 1 ≤ maxSize c → size c ≤ maxSize c →
  size (set k v c).1 ≤ maxSize c.
Proof.
  intros Hwf Hpos Hle. unfold size in *. destruct (has k c) eqn:Hhas.
  - rewrite set_present by done. simpl. rewrite length_app. simpl.
    apply JSMap.has_true_iff in Hhas.
    apply JSMap.length_delete_present in Hhas. lia.
  - destruct (Nat.leb_spec (maxSize c) (length (cache c))) as [Hfull|Hlt].
    + destruct (cache c) as [|[k0 v0] r] eqn:Hc; [simpl in *; lia|].
      rewrite (set_new_full k v c k0 v0 r) by (done || by rewrite Hc).
      simpl in *. rewrite length_app. simpl. lia.
    + rewrite set_new_room by done. simpl. rewrite length_app. simpl. lia.
Qed.

Lemma step_size_le c o :
  wf c → 1 ≤ maxSize c → size c ≤ maxSize c →
  size (step c o).1 ≤ maxSize c.
Proof.
  intros Hwf Hpos Hle. destruct o as [k v|k|k|k|]; simpl.
  - by apply set_size_le.
  - by rewrite get_size.
  - done.
  - unfold size in *. simpl.
    destruct (JSMap.has k (cache c)) eqn:Hhas.
    + apply JSMap.has_true_iff, JSMap.length_delete_present in Hhas. lia.
    + apply JSMap.has_false_iff in Hhas. by rewrite JSMap.delete_absent.
  - unfold size. simpl. lia.
Qed.

Lemma run_invariant c os :
  wf c → 1 ≤ maxSize c → size c ≤ maxSize c →
  wf (run c os).1 ∧ maxSize (run c os).1 = maxSize c ∧
  size (run c os).1 ≤ maxSize c.
Proof.
  revert c. induction os as [|o os IH]; intros c Hwf Hpos Hle; [done|].
  simpl. destruct (step c o) as [c1 r1] eqn:Hs.
  pose proof (step_wf c o Hwf) as Hwf1.
  pose proof (step_maxSize c o) as Hm1.
  pose proof (step_size_le c o Hwf Hpos Hle) as Hle1.
  rewrite Hs in *. simpl in *.
  destruct (IH c1) as (? & ? & ?); [done | lia | lia |].
  destruct (run c1 os) as [c2 r2]. simpl in *.
  split; [done|]. split; [congruence | lia].
Qed.
End LRUCache.

Arguments t : clear implicits.
Arguments call : clear implicits.
End LRUCache.

(** ** The image cache of the preloader hook *)

(** An [HTMLImageElement] is an object: it is known by its identity.  The
    clean-up of the cache resets its [src] and [srcset]; the cache operations
    report which elements they reset. *)
Definition HTMLImageElement : Type := nat.

Definition instanceofHTMLImageElement (_ : HTMLImageElement) : bool := true.

Definition IMAGE_CACHE_MAX_SIZE : nat := 200.

(** [const imageCache = new LRUCache<string, HTMLImageElement>(IMAGE_CACHE_MAX_SIZE)]. *)
Definition imageCache : LRUCache.t string HTMLImageElement :=
  LRUCache.new IMAGE_CACHE_MAX_SIZE.

Definition imageCacheSet (k : string) (v : HTMLImageElement)
    (c : LRUCache.t string HTMLImageElement) :
    LRUCache.t string HTMLImageElement * list HTMLImageElement :=
  LRUCache.set instanceofHTMLImageElement k v c.

(** The cache after a sequence of [set] calls. *)
Definition setAll (calls : list (string * HTMLImageElement))
    (c : LRUCache.t string HTMLImageElement) :
    LRUCache.t string HTMLImageElement :=
  foldl (λ c kv, (imageCacheSet kv.1 kv.2 c).1) c calls.

Lemma setAll_cons k v calls c :
  setAll ((k, v) :: calls) c = setAll calls (imageCacheSet k v c).1.
Proof. reflexivity. Qed.



(** *** The recency order on a cache of capacity 3 *)

Definition imageCacheRun (c : LRUCache.t string HTMLImageElement)
    (calls : list (LRUCache.call string HTMLImageElement)) :
    LRUCache.t string HTMLImageElement * list HTMLImageElement :=
  LRUCache.run instanceofHTMLImageElement c calls.

(** C6.  On a cache of capacity 3, after [set A], [set B], [set C], a refresh
    of A (by [get], or by [set] with any value) and [set D], the cache holds
    exactly C, A, D in this recency order: B, not A, was evicted (and B's image
    is the one that was cleaned up). *)
Theorem C6_refresh_protects_from_eviction (a b c d a' : HTMLImageElement) :
  imageCacheRun (LRUCache.new 3)
    [LRUCache.CallSet "A" a; LRUCache.CallSet "B" b; LRUCache.CallSet "C" c;
     LRUCache.CallGet "A"; LRUCache.CallSet "D" d]
  = ({| LRUCache.cache := [("C", c); ("A", a); ("D", d)];
        LRUCache.maxSize := 3 |}, [b])
  ∧
  imageCacheRun (LRUCache.new 3)
    [LRUCache.CallSet "A" a; LRUCache.CallSet "B" b; LRUCache.CallSet "C" c;
     LRUCache.CallSet "A" a'; LRUCache.CallSet "D" d]
  = ({| LRUCache.cache := [("C", c); ("A", a'); ("D", d)];
        LRUCache.maxSize := 3 |}, [b])
  ∧
  (LRUCache.get "A"
     (imageCacheRun (LRUCache.new 3)
        [LRUCache.CallSet "A" a; LRUCache.CallSet "B" b;
         LRUCache.CallSet "C" c]).1).1 = Some a.
Proof. split; [|split]; reflexivity. Qed.

(** *** Which cache mutations clean up the images they drop *)

(** Eviction at capacity cleans the evicted image up, once. *)
Lemma set_eviction_releases_once k v (c : LRUCache.t string HTMLImageElement) k0 v0 r :
  LRUCache.wf c → LRUCache.has k c = false →
  LRUCache.maxSize c ≤ length (LRUCache.cache c) →
  LRUCache.cache c = (k0, v0) :: r →
  imageCacheSet k v c =
    ({| LRUCache.cache := r ++ [(k, v)]; LRUCache.maxSize := LRUCache.maxSize c |},
     [v0]).
Proof.
  intros Hwf Hhas Hfull Hc. unfold imageCacheSet.
  by rewrite (LRUCache.set_new_full _ k v c k0 v0 r).
Qed.

(** [delete] cleans the deleted image up, once. *)
Lemma delete_releases_once k v (c : LRUCache.t string HTMLImageElement) :
  JSMap.get k (LRUCache.cache c) = Some v →
  (LRUCache.delete instanceofHTMLImageElement k c).2 = [v].
Proof. intros Hg. unfold LRUCache.delete. by rewrite Hg. Qed.

(** [clear] cleans every image of the cache up, once each. *)
Lemma clear_releases_all (c : LRUCache.t string HTMLImageElement) :
  (LRUCache.clear instanceofHTMLImageElement c).2
  = JSMap.values (LRUCache.cache c).
Proof.
  unfold LRUCache.clear. simpl.
  induction (JSMap.values (LRUCache.cache c)) as [|v vs IH]; [done|].
  simpl. by rewrite IH.
Qed.

(** [set] on a key the cache holds drops the value it held without cleaning
    it up: the branch only deletes the key. *)
Lemma set_replace_releases_nothing k v (c : LRUCache.t string HTMLImageElement) :
  LRUCache.has k c = true → (imageCacheSet k v c).2 = [].
Proof.
  intros Hhas. unfold imageCacheSet, LRUCache.set.
  unfold LRUCache.has in Hhas. by rewrite Hhas.
Qed.

(** C8 (the code at the failing input).  The image cache holds image 1 under
    ["a.png"]; [set "a.png" 2] replaces it.  Image 1 is no longer in the cache,
    and the call cleaned no image up, whereas deleting the key, clearing the
    cache, or evicting the entry would have cleaned image 1 up once. *)
Theorem C8_set_replace_drops_without_release :
  let c1 := (imageCacheSet "a.png" 1 imageCache).1 in
  let '(c2, released) := imageCacheSet "a.png" 2 c1 in
  JSMap.values (LRUCache.cache c1) = [1] ∧
  JSMap.values (LRUCache.cache c2) = [2] ∧
  released = [] ∧
  (LRUCache.delete instanceofHTMLImageElement "a.png" c1).2 = [1] ∧
  (LRUCache.clear instanceofHTMLImageElement c1).2 = [1] ∧
  (imageCacheSet "b.png" 2
     {| LRUCache.cache := LRUCache.cache c1; LRUCache.maxSize := 1 |}).2 = [1].
Proof. repeat split; reflexivity. Qed.

(** ** [class VideoMetadataLRUCache<K, V>] (videoUtils.ts) *)

Module VideoMetadataLRUCache.

(** The values the two instances of the class store: the metadata record
    [{width, height, duration, posterUrl}] of [videoMetadataCache] and the
    [string[]] of [videoFramesCache].  The numeric fields are integers here;
    [JSON.stringify] prints them in decimal. *)
Inductive value : Type :=
| Metadata (width height duration : Z) (posterUrl : string)
| Frames (frames : list string).

Record t := mk {
  cache : list (string * value);
  maxSize : nat;
  maxMemoryMB : Q
}.

Definition new (maxSize : nat) (maxMemoryMB : Q) : t :=
  {| cache := []; maxSize := maxSize; maxMemoryMB := maxMemoryMB |}.

Definition size (c : t) : nat := length (cache c).
Definition has (k : string) (c : t) : bool := JSMap.has k (cache c).
Definition wf (c : t) : Prop := JSMap.wf (cache c).

(** [new Blob([s]).size] and [s.length]. *)
Definition byteLength (s : string) : N := N.of_nat (String.length s).

Definition quote : string := String "034"%char EmptyString.

(** [JSON.stringify({width, height, duration})]. *)
Definition jsonStringify (width height duration : Z) : string :=
  "{" +:+ quote +:+ "width" +:+ quote +:+ ":" +:+ pretty width +:+
  "," +:+ quote +:+ "height" +:+ quote +:+ ":" +:+ pretty height +:+
  "," +:+ quote +:+ "duration" +:+ quote +:+ ":" +:+ pretty duration +:+ "}".

(** The estimate of one value in [getMemoryUsage].  An array is an object
    without [posterUrl], [width], [height] or [duration]: its estimate is the
    size of the text [{}]. *)
Definition valueBytes (v : value) : N :=
  match v with
  | Metadata width height duration posterUrl =>
      (if bool_decide (posterUrl = EmptyString) then 0
       else if String.prefix "data:" posterUrl then byteLength posterUrl
       else 1024)
      + byteLength (jsonStringify width height duration)
  | Frames _ => byteLength "{}"
  end%N.

Definition entryBytes (e : string * value) : N :=
  (byteLength e.1 + valueBytes e.2)%N.

(** [totalSize] at the end of the loop of [getMemoryUsage]. *)
Definition totalSize (m : list (string * value)) : N :=
  foldr (λ e acc, entryBytes e + acc)%N 0%N m.

(** [getMemoryUsage()]: the estimate in MB.  The division by 2^20 is exact in
    binary64 for every [totalSize] below 2^53, so the rational is the value
    the source compares. *)
Definition memoryUsageOf (m : list (string * value)) : Q :=
  inject_Z (Z.of_N (totalSize m)) / inject_Z (1024 * 1024).

Definition getMemoryUsage (c : t) : Q := memoryUsageOf (cache c).

(** [Math.ceil(size * 0.2)] in binary64 arithmetic.  The literal [0.2] is the
    double [3602879701896397 / 2^54]; the product with the integer [size] is
    rounded to a 53-bit significand, ties to even, and [Math.ceil] rounds the
    result up to an integer. *)
Definition roundedProduct (n : Z) : Z :=
  let p := (n * 3602879701896397)%Z in
  let b := Z.log2 p in
  if (b <=? 52)%Z then p
  else
    let s := (b - 52)%Z in
    let q := Z.shiftr p s in
    let r := Z.land p (Z.ones s) in
    let half := Z.shiftl 1 (s - 1) in
    let q' := if ((half <? r) || ((r =? half) && Z.odd q))%Z
              then (q + 1)%Z else q in
    Z.shiftl q' s.

Definition entriesToEvict (size : nat) : nat :=
  Z.to_nat ((roundedProduct (Z.of_nat size) + 2 ^ 54 - 1) / 2 ^ 54).

(** The first loop of [evictIfNeeded]: while the map is full, delete its first
    key; on an empty map there is no first key and the loop breaks. *)
Fixpoint evictWhileFull (maxSize : nat) (m : list (string * value)) :
    list (string * value) :=
  match m with
  | [] => []
  | _ :: r => if maxSize <=? length m then evictWhileFull maxSize r else m
  end.

(** [evictIfNeeded()]: the count loop, then one pass that deletes the first
    key [entriesToEvict] times (or until the map is empty) when the estimate
    is above [maxMemoryMB]. *)
Definition evictIfNeeded (c : t) : t :=
  let m1 := evictWhileFull (maxSize c) (cache c) in
  let memoryUsage := memoryUsageOf m1 in
  let m2 :=
    if negb (Qle_bool memoryUsage (maxMemoryMB c))
    then drop (entriesToEvict (length m1)) m1
    else m1 in
  {| cache := m2; maxSize := maxSize c; maxMemoryMB := maxMemoryMB c |}.

(** [set(key, value)]. *)
Definition set (k : string) (v : value) (c : t) : t :=
  let c1 :=
    if JSMap.has k (cache c) then
      {| cache := JSMap.delete k (cache c);
         maxSize := maxSize c; maxMemoryMB := maxMemoryMB c |}
    else evictIfNeeded c in
  {| cache := JSMap.set k v (cache c1);
     maxSize := maxSize c1; maxMemoryMB := maxMemoryMB c1 |}.

(** [get(key)]. *)
Definition get (k : string) (c : t) : option value * t :=
  match JSMap.get k (cache c) with
  | Some v =>
      (Some v,
       {| cache := JSMap.set k v (JSMap.delete k (cache c));
          maxSize := maxSize c; maxMemoryMB := maxMemoryMB c |})
  | None => (None, c)
  end.

(** The cache after a sequence of [set] calls. *)
Definition setAll (calls : list (string * value)) (c : t) : t :=
  foldl (λ c kv, set kv.1 kv.2 c) c calls.

Definition VIDEO_METADATA_CACHE_SIZE : nat := 200.
Definition VIDEO_METADATA_MEMORY_LIMIT_MB : Q := 150.

Definition videoMetadataCache : t :=
  new VIDEO_METADATA_CACHE_SIZE VIDEO_METADATA_MEMORY_LIMIT_MB.

(** A data URL with a payload of [n] characters. *)
Fixpoint payload (n : nat) : string :=
  match n with
  | 0 => EmptyString
  | S n' => String "A"%char (payload n')
  end.

Definition dataUrl (n : nat) : string := "data:" +:+ payload n.

(** *** Facts about the estimate *)






Lemma totalSize_cons e m : totalSize (e :: m) = (entryBytes e + totalSize m)%N.
Proof. reflexivity. Qed.



(** The test [memoryUsage > maxMemoryMB] on whole megabytes, in bytes. *)
Lemma over_limit_iff m (limitMB : Z) :
  negb (Qle_bool (memoryUsageOf m) (inject_Z limitMB)) = true
  ↔ (limitMB * 1048576 < Z.of_N (totalSize m))%Z.
Proof.
  rewrite negb_true_iff, <- not_true_iff_false, Qle_bool_iff.
  unfold memoryUsageOf, Qle, Qdiv, Qmult, Qinv, inject_Z. simpl. lia.
Qed.

Lemma usage_le_iff m (limitMB : Z) :
  (memoryUsageOf m <= inject_Z limitMB)%Q
  ↔ (Z.of_N (totalSize m) ≤ limitMB * 1048576)%Z.
Proof.
  unfold memoryUsageOf, Qle, Qdiv, Qmult, Qinv, inject_Z. simpl. lia.
Qed.

(** *** Facts about the eviction pass *)

(** Up to the largest size either instance of the class allows, the rounding
    of [size * 0.2] does no harm: [Math.ceil(size * 0.2)] is a fifth of the
    size, rounded up. *)
Lemma entriesToEvict_fifth size :
  size ≤ 200 → entriesToEvict size = (size + 4) `div` 5.
Proof.
  intros Hle.
  assert (forallb (λ n, entriesToEvict n =? (n + 4) `div` 5) (seq 0 201) = true)
    as Hall by (vm_compute; reflexivity).
  rewrite forallb_forall in Hall.
  apply Nat.eqb_eq, Hall, in_seq. lia.
Qed.

Lemma evictWhileFull_room n m : length m < n → evictWhileFull n m = m.
Proof.
  destruct m as [|e r]; simpl; [done|]. intros Hlt.
  destruct (Nat.leb_spec n (S (length r))); [lia | done].
Qed.

Lemma evictWhileFull_full n e r :
  n = S (length r) → evictWhileFull n (e :: r) = r.
Proof.
  intros ->. simpl. rewrite Nat.leb_refl. apply evictWhileFull_room. lia.
Qed.

Lemma evictWhileFull_length n m : 1 ≤ n → length (evictWhileFull n m) < n.
Proof.
  intros Hn. induction m as [|e r IH]; simpl; [lia|].
  destruct (Nat.leb_spec n (S (length r))); [done | simpl; lia].
Qed.

Lemma evictWhileFull_suffix n m : ∃ j, evictWhileFull n m = drop j m.
Proof.
  induction m as [|e r [j IH]]; simpl; [by exists 0|].
  destruct (n <=? S (length r)); [by exists (S j) | by exists 0].
Qed.

Lemma keys_drop_wf j (m : list (string * value)) :
  JSMap.wf m → JSMap.wf (drop j m).
Proof.
  unfold JSMap.wf, JSMap.keys. rewrite fmap_drop.
  intros Hnd. eapply sublist_NoDup; [done | apply sublist_drop].
Qed.

Lemma keys_drop_absent j k (m : list (string * value)) :
  k ∉ JSMap.keys m → k ∉ JSMap.keys (drop j m).
Proof.
  unfold JSMap.keys. rewrite fmap_drop. intros Hn Hin. apply Hn.
  eapply elem_of_sublist; [done | apply sublist_drop].
Qed.

Lemma evictIfNeeded_cache c :
  ∃ j, cache (evictIfNeeded c) = drop j (cache c).
Proof.
  unfold evictIfNeeded. simpl.
  destruct (evictWhileFull_suffix (maxSize c) (cache c)) as [j ->].
  destruct (negb _); [|by exists j].
  rewrite drop_drop. by eexists.
Qed.

Lemma evictIfNeeded_length c :
  1 ≤ maxSize c → length (cache (evictIfNeeded c)) < maxSize c.
Proof.
  intros Hn. unfold evictIfNeeded. simpl.
  pose proof (evictWhileFull_length (maxSize c) (cache c) Hn).
  destruct (negb _); [|done]. rewrite length_drop. lia.
Qed.

Lemma video_set_maxSize k v c : maxSize (set k v c) = maxSize c.
Proof. unfold set. by destruct (JSMap.has k (cache c)). Qed.

Lemma set_maxMemoryMB k v c : maxMemoryMB (set k v c) = maxMemoryMB c.
Proof. unfold set. by destruct (JSMap.has k (cache c)). Qed.

Lemma video_set_present k v c :
  wf c → has k c = true →
  cache (set k v c) = JSMap.delete k (cache c) ++ [(k, v)].
Proof.
  intros Hwf Hhas. unfold set, has in *. rewrite Hhas. simpl.
  by rewrite JSMap.set_absent by by apply JSMap.delete_not_in.
Qed.

Lemma set_new k v c :
  has k c = false →
  cache (set k v c) = cache (evictIfNeeded c) ++ [(k, v)].
Proof.
  intros Hhas. unfold set, has in *. rewrite Hhas.
  apply JSMap.has_false_iff in Hhas.
  destruct (evictIfNeeded_cache c) as [j Hj].
  cbn [cache]. rewrite JSMap.set_absent; [done|].
  rewrite Hj. by apply keys_drop_absent.
Qed.

Lemma video_set_wf k v c : wf c → wf (set k v c).
Proof.
  intros Hwf. unfold wf. destruct (has k c) eqn:Hhas.
  - rewrite video_set_present by done.
    rewrite <- JSMap.set_absent by by apply JSMap.delete_not_in.
    apply JSMap.set_absent_wf;
      [by apply JSMap.delete_wf | by apply JSMap.delete_not_in].
  - rewrite set_new by done.
    destruct (evictIfNeeded_cache c) as [j Hj]. rewrite Hj.
    apply JSMap.has_false_iff in Hhas.
    rewrite <- JSMap.set_absent by by apply keys_drop_absent.
    apply JSMap.set_absent_wf; [by apply keys_drop_wf | by apply keys_drop_absent].
Qed.

Lemma video_set_size_le k v c :
  wf c → 1 ≤ maxSize c → size c ≤ maxSize c → size (set k v c) ≤ maxSize c.
Proof.
  intros Hwf Hpos Hle. unfold size in *. destruct (has k c) eqn:Hhas.
  - rewrite video_set_present by done. rewrite length_app. simpl.
    apply JSMap.has_true_iff, JSMap.length_delete_present in Hhas. lia.
  - rewrite set_new by done. rewrite length_app.
    change (length [(k, v)]) with 1.
    pose proof (evictIfNeeded_length c Hpos). lia.
Qed.

Lemma video_setAll_invariant calls c :
  wf c → 1 ≤ maxSize c → size c ≤ maxSize c →
  wf (setAll calls c) ∧ maxSize (setAll calls c) = maxSize c ∧
  maxMemoryMB (setAll calls c) = maxMemoryMB c ∧
  size (setAll calls c) ≤ maxSize c.
Proof.
  revert c. induction calls as [|[k v] calls IH]; intros c Hwf Hpos Hle; [done|].
  change (setAll ((k, v) :: calls) c) with (setAll calls (set k v c)).
  pose proof (video_set_wf k v c Hwf) as Hwf1.
  pose proof (video_set_size_le k v c Hwf Hpos Hle) as Hle1.
  destruct (IH (set k v c)) as (? & Hm & Hmm & Hs);
    [done | rewrite video_set_maxSize; lia | rewrite video_set_maxSize; lia |].
  rewrite video_set_maxSize in Hm, Hs. rewrite set_maxMemoryMB in Hmm. done.
Qed.








End VideoMetadataLRUCache.



(** ** Promises *)

Inductive promise (A : Type) : Type :=
| Pending
| Resolved (a : A)
| Rejected (message : string).
Arguments Pending {A}.
Arguments Resolved {A} a.
Arguments Rejected {A} message.

(** ** The preloader hook and [class ThrottledPreloadQueue] (useImagePreloader.ts) *)

Module Preloader.

(** [let scrollDirection: 'up' | 'down' | 'idle']. *)
Inductive ScrollDirection : Type := up | down | idle.

(** A queue item [{ url, priority, distance }]; numbers are rationals. *)
Record QueueItem := mkItem { url : string; priority : Q; distance : Q }.

(** The comparator of [sortQueue]: the number it returns. *)
Definition compareFn (scrollDirection : ScrollDirection) (a b : QueueItem) : Q :=
  let priorityDiff := (priority b - priority a)%Q in
  if negb (Qeq_bool priorityDiff 0) then priorityDiff
  else
    let distanceDiff := (distance a - distance b)%Q in
    if negb (Qeq_bool distanceDiff 0) then distanceDiff
    else
      match scrollDirection with
      | down => (distance a - distance b)%Q
      | up => (distance b - distance a)%Q
      | idle => 0%Q
      end.

(** [Array.prototype.sort] is stable: [a] stays before [b] unless the
    comparator returns a positive number for [(a, b)].  A stable insertion sort
    computes that order. *)
Fixpoint insertSorted (cmp : QueueItem → QueueItem → Q) (x : QueueItem)
    (l : list QueueItem) : list QueueItem :=
  match l with
  | [] => [x]
  | y :: r =>
      if Qle_bool (cmp x y) 0 then x :: y :: r
      else y :: insertSorted cmp x r
  end.

Definition sortBy (cmp : QueueItem → QueueItem → Q) (l : list QueueItem) :
    list QueueItem :=
  foldr (insertSorted cmp) [] l.

(** [calculateViewportDistance]: the distance of the centre of the element
    (its [getBoundingClientRect()] has the given [top] and [height]) from the
    centre of the viewport. *)
Definition calculateViewportDistance (rectTop rectHeight innerHeight : Q) : Q :=
  let viewportCenter := (innerHeight / 2)%Q in
  let elementCenter := (rectTop + rectHeight / 2)%Q in
  Qabs (elementCenter - viewportCenter).

Definition maxConcurrent : nat := 4.
Definition throttleDelay : Z := 100.

(** The module-level state of the hook: the image cache, the scroll direction,
    the fields of the singleton [preloadQueue] ([queue], [loading],
    [lastProcessTime]) and the React state [loadedImages].  The last two
    fields are bookkeeping of the model: the [decodeImage] calls of
    [processQueue] that have not settled yet, and all of them in order. *)
Record World := mkWorld {
  imageCache : LRUCache.t string HTMLImageElement;
  scrollDirection : ScrollDirection;
  queue : list QueueItem;
  loading : gset string;
  lastProcessTime : Z;
  loadedImages : gset string;
  decoding : list string;
  dispatched : list string
}.

Definition init : World :=
  {| imageCache := LRUCache.new IMAGE_CACHE_MAX_SIZE;
     scrollDirection := idle;
     queue := [];
     loading := ∅;
     lastProcessTime := 0;
     loadedImages := ∅;
     decoding := [];
     dispatched := [] |}.

Definition urls (q : list QueueItem) : list string := url <$> q.

(** [sortQueue()]. *)
Definition sortQueue (w : World) : World :=
  {| imageCache := imageCache w; scrollDirection := scrollDirection w;
     queue := sortBy (compareFn (scrollDirection w)) (queue w);
     loading := loading w; lastProcessTime := lastProcessTime w;
     loadedImages := loadedImages w;
     decoding := decoding w; dispatched := dispatched w |}.

(** [processQueue()], up to its [await]; [now] is [Date.now()].  A throttled
    call only schedules another call; calls scheduled with [setTimeout] are
    the [Timer] events below. *)
Definition processQueue (now : Z) (w : World) : World :=
  if (now - lastProcessTime w <? throttleDelay)%Z then w
  else if (maxConcurrent <=? size (loading w)) || (length (queue w) =? 0)
  then w
  else
    match queue w with
    | [] => w
    | item :: rest =>
        if LRUCache.has (url item) (imageCache w) then
          {| imageCache := imageCache w; scrollDirection := scrollDirection w;
             queue := rest;
             loading := loading w; lastProcessTime := now;
             loadedImages := loadedImages w;
             decoding := decoding w; dispatched := dispatched w |}
        else
          {| imageCache := imageCache w; scrollDirection := scrollDirection w;
             queue := rest;
             loading := {[url item]} ∪ loading w; lastProcessTime := now;
             loadedImages := loadedImages w;
             decoding := url item :: decoding w;
             dispatched := dispatched w ++ [url item] |}
    end.

(** [add(url, priority, distance)]. *)
Definition add (u : string) (priority distance : Q) (now : Z) (w : World) :
    World :=
  if bool_decide (u ∈ loading w) || LRUCache.has u (imageCache w) then w
  else
    let w1 :=
      {| imageCache := imageCache w; scrollDirection := scrollDirection w;
         queue := filter (λ item, url item ≠ u) (queue w)
                  ++ [mkItem u priority distance];
         loading := loading w; lastProcessTime := lastProcessTime w;
         loadedImages := loadedImages w;
         decoding := decoding w; dispatched := dispatched w |} in
    processQueue now (sortQueue w1).

Fixpoint removeFirst (u : string) (l : list string) : list string :=
  match l with
  | [] => []
  | x :: r => if decide (x = u) then r else x :: removeFirst u r
  end.

(** The rest of [processQueue] once the decode of [u] has settled: with an
    image when the result had a bitmap, a canvas or a fallback image
    ([preloadImage] stores it), with [None] when the result was empty or the
    promise was rejected.  [finally] removes [u] from [loading]. *)
Definition settled (u : string) (outcome : option HTMLImageElement) (w : World) :
    World :=
  if bool_decide (u ∈ decoding w) then
    {| imageCache :=
         match outcome with
         | Some img => (imageCacheSet u img (imageCache w)).1
         | None => imageCache w
         end;
       scrollDirection := scrollDirection w;
       queue := queue w;
       loading := loading w ∖ {[u]};
       lastProcessTime := lastProcessTime w;
       loadedImages := loadedImages w;
       decoding := removeFirst u (decoding w);
       dispatched := dispatched w |}
  else w.

(** [preloadQueue.clear()] after [imageCache.clear()], as in [clearCache]. *)
Definition clearCache (w : World) : World :=
  {| imageCache := (LRUCache.clear instanceofHTMLImageElement (imageCache w)).1;
     scrollDirection := scrollDirection w;
     queue := [];
     loading := ∅;
     lastProcessTime := lastProcessTime w;
     loadedImages := ∅;
     decoding := decoding w; dispatched := dispatched w |}.

(** [preloadImage(url, priority)] of the hook; it returns [Promise.resolve()]
    on every path. *)
Definition preloadImage (u : string) (priority : Q) (now : Z) (w : World) :
    promise unit * World :=
  if bool_decide (u = EmptyString) || String.prefix "data:" u then
    (Resolved (), w)
  else if LRUCache.has u (imageCache w) then
    (Resolved (),
     {| imageCache := imageCache w; scrollDirection := scrollDirection w;
        queue := queue w; loading := loading w;
        lastProcessTime := lastProcessTime w;
        loadedImages := {[u]} ∪ loadedImages w;
        decoding := decoding w; dispatched := dispatched w |})
  else (Resolved (), add u priority 0 now w).

(** What can happen to the world, one run-to-completion block each: a call
    of [preloadQueue.add], a [setTimeout] callback that runs [processQueue],
    the end of a decode, a scroll signal, [getCachedImage], the deletion of a
    cached image by the hook, and [clearCache]. *)
Inductive event : Type :=
| Add (u : string) (priority distance : Q) (now : Z)
| Timer (now : Z)
| Settled (u : string) (outcome : option HTMLImageElement)
| Scroll (direction : ScrollDirection)
| CacheGet (u : string)
| CacheDelete (u : string)
| ClearCache.

Definition step (w : World) (e : event) : World :=
  match e with
  | Add u p d now => add u p d now w
  | Timer now => processQueue now w
  | Settled u outcome => settled u outcome w
  | Scroll dir =>
      {| imageCache := imageCache w; scrollDirection := dir;
         queue := queue w; loading := loading w;
         lastProcessTime := lastProcessTime w;
         loadedImages := loadedImages w;
         decoding := decoding w; dispatched := dispatched w |}
  | CacheGet u =>
      {| imageCache := (LRUCache.get u (imageCache w)).2;
         scrollDirection := scrollDirection w;
         queue := queue w; loading := loading w;
         lastProcessTime := lastProcessTime w;
         loadedImages := loadedImages w;
         decoding := decoding w; dispatched := dispatched w |}
  | CacheDelete u =>
      {| imageCache :=
           (LRUCache.delete instanceofHTMLImageElement u (imageCache w)).1.2;
         scrollDirection := scrollDirection w;
         queue := queue w; loading := loading w;
         lastProcessTime := lastProcessTime w;
         loadedImages := loadedImages w;
         decoding := decoding w; dispatched := dispatched w |}
  | ClearCache => clearCache w
  end.

Definition run (w : World) (evs : list event) : World := foldl step w evs.



(** *** The sort is a stable rearrangement *)

Lemma insertSorted_perm cmp x l : insertSorted cmp x l ≡ₚ x :: l.
Proof.
  induction l as [|y r IH]; simpl; [done|].
  destruct (Qle_bool (cmp x y) 0); [done|].
  rewrite IH. apply Permutation_swap.
Qed.

Lemma sortBy_perm cmp l : sortBy cmp l ≡ₚ l.
Proof.
  induction l as [|x l IH]; simpl; [done|].
  rewrite insertSorted_perm. by rewrite IH.
Qed.

Lemma urls_sortBy cmp l : urls (sortBy cmp l) ≡ₚ urls l.
Proof. unfold urls. by rewrite sortBy_perm. Qed.

(** *** Invariants of the queue *)

Record Inv (w : World) : Prop := {
  inv_queue_nodup : NoDup (urls (queue w));
  inv_queue_not_loading : ∀ u, u ∈ urls (queue w) → u ∉ loading w;
  inv_loading_size : size (loading w) ≤ maxConcurrent
}.


Lemma init_Inv : Inv init.
Proof.
  split; unfold init; cbn [queue loading urls fmap list_fmap].
  - apply NoDup_nil_2.
  - intros u Hu. inversion Hu.
  - rewrite size_empty. unfold maxConcurrent. lia.
Qed.


Lemma sortQueue_Inv w : Inv w → Inv (sortQueue w).
Proof.
  intros [Hnd Hnl Hsz]. split; simpl; [| |done].
  - by rewrite urls_sortBy.
  - intros u Hu. apply Hnl. by rewrite urls_sortBy in Hu.
Qed.

(** The three outcomes of [processQueue]. *)
Lemma processQueue_cases now w :
  processQueue now w = w ∨
  (∃ item rest,
     queue w = item :: rest ∧
     LRUCache.has (url item) (imageCache w) = true ∧
     processQueue now w =
       {| imageCache := imageCache w; scrollDirection := scrollDirection w;
          queue := rest; loading := loading w; lastProcessTime := now;
          loadedImages := loadedImages w;
          decoding := decoding w; dispatched := dispatched w |}) ∨
  (∃ item rest,
     queue w = item :: rest ∧
     LRUCache.has (url item) (imageCache w) = false ∧
     size (loading w) < maxConcurrent ∧
     processQueue now w =
       {| imageCache := imageCache w; scrollDirection := scrollDirection w;
          queue := rest; loading := {[url item]} ∪ loading w;
          lastProcessTime := now; loadedImages := loadedImages w;
          decoding := url item :: decoding w;
          dispatched := dispatched w ++ [url item] |}).
Proof.
  unfold processQueue.
  destruct (now - lastProcessTime w <? throttleDelay)%Z; [by left|].
  destruct (Nat.leb_spec maxConcurrent (size (loading w))) as [Hfull|Hroom];
    simpl; [by left|].
  destruct (queue w) as [|item rest] eqn:Hq; simpl; [by left|].
  destruct (LRUCache.has (url item) (imageCache w)) eqn:Hhas.
  - right; left. by exists item, rest.
  - right; right. by exists item, rest.
Qed.

Lemma processQueue_Inv now w : Inv w → Inv (processQueue now w).
Proof.
  intros [Hnd Hnl Hsz].
  destruct (processQueue_cases now w)
    as [-> | [(item & rest & Hq & Hhas & ->) | (item & rest & Hq & Hhas & Hroom & ->)]];
    [done | |]; rewrite Hq in Hnd, Hnl; simpl in Hnd, Hnl;
    apply NoDup_cons in Hnd as [Hhead Hnd].
  - split; simpl; [done | | done].
    intros u Hu. apply Hnl. by right.
  - assert (url item ∉ loading w) as Hfresh by (apply Hnl; left).
    split; simpl; [done | |].
    + intros u Hu. apply not_elem_of_union. split.
      * apply not_elem_of_singleton. intros ->. done.
      * apply Hnl. by right.
    + rewrite size_union by set_solver. rewrite size_singleton. lia.
Qed.

Lemma urls_filter_ne u q : u ∉ urls (filter (λ item, url item ≠ u) q).
Proof.
  unfold urls. intros Hin. apply list_elem_of_fmap in Hin as (item & -> & Hin).
  apply list_elem_of_filter in Hin as [Hne _]. done.
Qed.

Lemma urls_filter_sublist (P : QueueItem → Prop) `{!∀ x, Decision (P x)} q :
  urls (filter P q) `sublist_of` urls q.
Proof. unfold urls. apply fmap_sublist, sublist_filter. Qed.


(** The queue of [add] just before it calls [processQueue]. *)
Definition enqueued (u : string) (p d : Q) (w : World) : World :=
  sortQueue
    {| imageCache := imageCache w; scrollDirection := scrollDirection w;
       queue := filter (λ item, url item ≠ u) (queue w) ++ [mkItem u p d];
       loading := loading w; lastProcessTime := lastProcessTime w;
       loadedImages := loadedImages w;
       decoding := decoding w; dispatched := dispatched w |}.


Lemma enqueued_Inv u p d w : Inv w → u ∉ loading w → Inv (enqueued u p d w).
Proof.
  intros [Hnd Hnl Hsz] Hl. apply sortQueue_Inv. split; simpl; [| |done].
  - unfold urls. rewrite fmap_app. apply NoDup_app. split; [|split].
    + eapply sublist_NoDup; [exact Hnd|].
      apply (urls_filter_sublist (λ item, url item ≠ u)).
    + intros x Hx Hx'. simpl in Hx'. apply list_elem_of_singleton in Hx'.
      subst x. by apply (urls_filter_ne u (queue w)).
    + apply NoDup_singleton.
  - intros x Hx. unfold urls in Hx. rewrite fmap_app in Hx.
    apply elem_of_app in Hx as [Hx|Hx].
    + apply Hnl. eapply elem_of_sublist; [exact Hx|].
      apply (urls_filter_sublist (λ item, url item ≠ u)).
    + simpl in Hx. apply list_elem_of_singleton in Hx. by subst x.
Qed.

Lemma add_Inv u p d now w : Inv w → Inv (add u p d now w).
Proof.
  intros HI. unfold add.
  destruct (bool_decide (u ∈ loading w)) eqn:Hl; simpl; [done|].
  destruct (LRUCache.has u (imageCache w)); [done|].
  apply bool_decide_eq_false in Hl.
  apply processQueue_Inv. by apply (enqueued_Inv u p d w).
Qed.

Lemma settled_Inv u outcome w : Inv w → Inv (settled u outcome w).
Proof.
  intros [Hnd Hnl Hsz]. unfold settled.
  destruct (bool_decide (u ∈ decoding w)); [|done].
  split; simpl; [done | |].
  - intros x Hx Hin. apply (Hnl x Hx). set_solver.
  - etrans; [|exact Hsz]. apply subseteq_size. set_solver.
Qed.

Lemma queue_step_Inv w e : Inv w → Inv (step w e).
Proof.
  intros HI. destruct e as [u p d now|now|u outcome|dir|u|u|]; simpl.
  - by apply add_Inv.
  - by apply processQueue_Inv.
  - by apply settled_Inv.
  - by destruct HI.
  - by destruct HI.
  - by destruct HI.
  - split; unfold clearCache; cbn [queue loading urls fmap list_fmap].
    + apply NoDup_nil_2.
    + intros u Hu. inversion Hu.
    + rewrite size_empty. unfold maxConcurrent. lia.
Qed.

Lemma queue_run_Inv evs w : Inv w → Inv (run w evs).
Proof.
  revert w. induction evs as [|e evs IH]; intros w HI; [done|].
  simpl. apply IH. by apply queue_step_Inv.
Qed.

(** *** The decodes under way, in a run without [clear()] *)







(** *** How often a key is handed to the decoder *)





(** *** A new [add] replaces the pending item of its key *)





End Preloader.


(** Why the decodes under way are counted in runs without [clear()] only:
    [clearCache] empties [loading] but the four decodes go on, and four more
    can start. *)
Example clear_forgets_decodes_under_way :
  let w := Preloader.run Preloader.init
             [Preloader.Add "a1" 0 0 1000; Preloader.Add "a2" 0 0 1100;
              Preloader.Add "a3" 0 0 1200; Preloader.Add "a4" 0 0 1300;
              Preloader.ClearCache;
              Preloader.Add "b1" 0 0 1400; Preloader.Add "b2" 0 0 1500;
              Preloader.Add "b3" 0 0 1600; Preloader.Add "b4" 0 0 1700] in
  size (Preloader.loading w) = 4 ∧ length (Preloader.decoding w) = 8.
Proof. split; reflexivity. Qed.


(** *** The tie-break of [sortQueue] *)

(** When priorities and distances are equal the comparator returns zero,
    whatever the scroll direction: its last branch returns a difference of
    distances that the branch before found to be zero. *)
Lemma compareFn_direction dir a b :
  (Preloader.compareFn dir a b == Preloader.compareFn Preloader.idle a b)%Q.
Proof.
  unfold Preloader.compareFn.
  destruct (Qeq_bool (Preloader.priority b - Preloader.priority a) 0);
    simpl; [|reflexivity].
  destruct (Qeq_bool (Preloader.distance a - Preloader.distance b) 0) eqn:Hd;
    simpl; [|reflexivity].
  apply Qeq_bool_iff in Hd. destruct dir; [|done|reflexivity].
  setoid_replace (Preloader.distance b - Preloader.distance a)%Q
    with (- (Preloader.distance a - Preloader.distance b))%Q
    using relation Qeq by ring.
  rewrite Hd. reflexivity.
Qed.

Lemma Qle_bool_Qeq x y : (x == y)%Q → Qle_bool x 0 = Qle_bool y 0.
Proof.
  intros Hxy. destruct (Qle_bool y 0) eqn:Hy.
  - apply Qle_bool_iff. rewrite Hxy. by apply Qle_bool_iff.
  - apply not_true_is_false. intros Hx. apply Qle_bool_iff in Hx.
    rewrite Hxy in Hx. apply Qle_bool_iff in Hx. congruence.
Qed.

Lemma insertSorted_direction dir x l :
  Preloader.insertSorted (Preloader.compareFn dir) x l
  = Preloader.insertSorted (Preloader.compareFn Preloader.idle) x l.
Proof.
  induction l as [|y r IH]; simpl; [done|].
  rewrite (Qle_bool_Qeq _ _ (compareFn_direction dir x y)).
  by rewrite IH.
Qed.

(** The scroll direction has no influence on the order of the queue. *)
Lemma sortBy_direction dir l :
  Preloader.sortBy (Preloader.compareFn dir) l
  = Preloader.sortBy (Preloader.compareFn Preloader.idle) l.
Proof.
  induction l as [|x l IH]; simpl; [done|].
  by rewrite IH, insertSorted_direction.
Qed.

(** Two items of equal priority and distance keep their order. *)
Lemma sortBy_tie dir a b :
  (Preloader.priority a == Preloader.priority b)%Q →
  (Preloader.distance a == Preloader.distance b)%Q →
  Preloader.sortBy (Preloader.compareFn dir) [a; b] = [a; b].
Proof.
  intros Hp Hd. rewrite sortBy_direction. simpl.
  unfold Preloader.compareFn.
  assert (Qeq_bool (Preloader.priority b - Preloader.priority a) 0 = true) as ->.
  { apply Qeq_bool_iff. rewrite Hp. ring. }
  assert (Qeq_bool (Preloader.distance a - Preloader.distance b) 0 = true) as ->.
  { apply Qeq_bool_iff. rewrite Hd. ring. }
  done.
Qed.

(** C7 (the code at the failing input).  The viewport is 800 px high.  One
    image lies above it (top -200, height 100), one below it (top 900, height
    100): both are 550 px from its centre.  With scroll direction [down], the
    image above is enqueued first, then the image below, with equal priority,
    while a first image is loading and the queue is throttled.  The sort keeps
    the image above first, and the next timer hands it, not the image below,
    to the decoder.  In general the order does not depend on the scroll
    direction at all. *)
Theorem C7_tie_break_ignores_scroll_direction :
  let dAbove := Preloader.calculateViewportDistance (-200) 100 800 in
  let dBelow := Preloader.calculateViewportDistance 900 100 800 in
  let above := Preloader.mkItem "above.png" 50 dAbove in
  let below := Preloader.mkItem "below.png" 50 dBelow in
  (dAbove == dBelow)%Q ∧
  Preloader.sortBy (Preloader.compareFn Preloader.down) [above; below]
    = [above; below] ∧
  Preloader.dispatched
    (Preloader.run Preloader.init
       [Preloader.Scroll Preloader.down;
        Preloader.Add "first.png" 80 0 1000;
        Preloader.Add "above.png" 50 dAbove 1010;
        Preloader.Add "below.png" 50 dBelow 1020;
        Preloader.Timer 1200])
    = ["first.png"; "above.png"] ∧
  ∀ dir l,
    Preloader.sortBy (Preloader.compareFn dir) l
    = Preloader.sortBy (Preloader.compareFn Preloader.idle) l.
Proof.
  intros dAbove dBelow above below.
  split; [reflexivity|]. split; [reflexivity|]. split; [reflexivity|].
  apply sortBy_direction.
Qed.

(** *** [preloadImage] of the hook *)

(** C9.  For the empty string and for every URL that starts with ["data:"],
    [preloadImage] returns a resolved promise and leaves the whole state of the
    hook unchanged, in particular the preload queue and the image cache. *)
Theorem C9_preloadImage_skips_data_urls
    (u : string) (p : Q) (now : Z) (w : Preloader.World) :
  u = EmptyString ∨ String.prefix "data:" u = true →
  Preloader.preloadImage u p now w = (Resolved (), w).
Proof.
  intros [-> | Hdata]; unfold Preloader.preloadImage; [done|].
  rewrite Hdata. by rewrite orb_true_r.
Qed.

Lemma C9_preloadImage_skips_data_urls_witness :
  String.prefix "data:" "data:image/png;base64,iVBORw0KGgo=" = true ∧
  Preloader.preloadImage "data:image/png;base64,iVBORw0KGgo=" 5 1000
    (Preloader.run Preloader.init [Preloader.Add "a.png" 10 0 1000;
                                   Preloader.Add "b.png" 20 0 1001])
  = (Resolved (),
     Preloader.run Preloader.init [Preloader.Add "a.png" 10 0 1000;
                                   Preloader.Add "b.png" 20 0 1001]).
Proof.
  split; [reflexivity|].
  apply C9_preloadImage_skips_data_urls. right. reflexivity.
Defined.

(** ** [class ImageDecoderService] (the image decoder service) *)

Module ImageDecoderService.

(** An [ImageBitmap] and the raw pixels of the canvas fallback. *)
Record ImageBitmap := { bitmapWidth : nat; bitmapHeight : nat }.
Record FallbackImageData := {
  fallbackWidth : nat; fallbackHeight : nat; fallbackData : list Z
}.

(** [interface ImageDecodeRequest]; the options are passed through. *)
Record ImageDecodeRequest := {
  requestId : string; imageUrl : string; options : option string
}.

(** [interface ImageDecodeResponse]. *)
Record ImageDecodeResponse := {
  id : string;
  success : bool;
  imageBitmap : option ImageBitmap;
  error : option string;
  fallbackImageData : option FallbackImageData
}.

(** [interface DecodedImageResult]: at most one of its fields is set by the
    service. *)
Inductive DecodedImageResult : Type :=
| ResultEmpty
| ResultImageBitmap (b : ImageBitmap)
| ResultCanvas (data : FallbackImageData)
| ResultFallbackImage (img : HTMLImageElement).

(** The outcome of [window.electron.convertImageToBase64]. *)
Inductive conversion : Type :=
| Converted (dataUrl : string)
| ConversionFailed (message : string).

(** The service and the part of the environment it acts on.  A promise is
    known by its index in [promises]; [pendingRequests] maps a request id to
    the promise whose [resolve] and [reject] it holds.  [timers] are the
    [setTimeout] callbacks not run yet (deadline and request id), [posted] the
    messages sent to the worker, [imageLoads] the promises of the main-thread
    path that wait for [img.onload] or [img.onerror].  [calls] and [issued]
    are bookkeeping of the model: the promises on which a [resolve] or
    [reject] held by [pendingRequests] was called, and the request ids
    allocated, in order. *)
Record t := mk {
  worker : bool;
  workerInitialized : bool;
  pendingRequests : list (string * nat);
  requestIdCounter : nat;
  electron : bool;
  now : Z;
  timers : list (Z * string);
  promises : list (promise DecodedImageResult);
  posted : list ImageDecodeRequest;
  imageLoads : list nat;
  calls : list nat;
  issued : list string
}.

(** The service after its constructor; [initializeWorker] succeeded or not. *)
Definition create (workerOk electron : bool) : t :=
  {| worker := workerOk; workerInitialized := workerOk;
     pendingRequests := []; requestIdCounter := 0;
     electron := electron; now := 0; timers := [];
     promises := []; posted := []; imageLoads := []; calls := [];
     issued := [] |}.

(** The id [`decode_${n}`]. *)
Definition decodeId (n : nat) : string := "decode_" +:+ pretty n.

Definition TIMEOUT : Z := 30000.

(** Settling a promise: only a pending promise changes. *)
Definition settle (p : nat) (outcome : promise DecodedImageResult)
    (ps : list (promise DecodedImageResult)) :
    list (promise DecodedImageResult) :=
  match ps !! p with
  | Some Pending => <[p := outcome]> ps
  | _ => ps
  end.

(** A call of the [resolve] or [reject] stored in [pendingRequests]. *)
Definition callback (p : nat) (outcome : promise DecodedImageResult) (s : t) : t :=
  {| worker := worker s; workerInitialized := workerInitialized s;
     pendingRequests := pendingRequests s;
     requestIdCounter := requestIdCounter s;
     electron := electron s; now := now s; timers := timers s;
     promises := settle p outcome (promises s);
     posted := posted s; imageLoads := imageLoads s;
     calls := calls s ++ [p]; issued := issued s |}.

Definition withPending (m : list (string * nat)) (s : t) : t :=
  {| worker := worker s; workerInitialized := workerInitialized s;
     pendingRequests := m;
     requestIdCounter := requestIdCounter s;
     electron := electron s; now := now s; timers := timers s;
     promises := promises s;
     posted := posted s; imageLoads := imageLoads s;
     calls := calls s; issued := issued s |}.

(** [error || "Unknown decoding error"]. *)
Definition errorMessage (error : option string) : string :=
  match error with
  | Some e => if bool_decide (e = EmptyString) then "Unknown decoding error" else e
  | None => "Unknown decoding error"
  end.

(** [handleWorkerMessage(event)]; [ctxOk] tells whether
    [canvas.getContext("2d")] returned a context. *)
Definition handleWorkerMessage (r : ImageDecodeResponse) (ctxOk : bool) (s : t) : t :=
  match JSMap.get (id r) (pendingRequests s) with
  | None => s
  | Some request =>
      let s1 := withPending (JSMap.delete (id r) (pendingRequests s)) s in
      if success r then
        let result :=
          match imageBitmap r, fallbackImageData r with
          | Some b, _ => ResultImageBitmap b
          | None, Some data => if ctxOk then ResultCanvas data else ResultEmpty
          | None, None => ResultEmpty
          end in
        callback request (Resolved result) s1
      else callback request (Rejected (errorMessage (error r))) s1
  end.

(** [handleWorkerError(error)]: every pending request is rejected, the table
    is cleared and the worker is created again ([reinitOk]: with success). *)
Definition handleWorkerError (message : string) (reinitOk : bool) (s : t) : t :=
  let s1 :=
    foldl (λ s request, callback request (Rejected ("Worker error: " +:+ message)) s)
      s (JSMap.values (pendingRequests s)) in
  {| worker := reinitOk; workerInitialized := reinitOk;
     pendingRequests := [];
     requestIdCounter := requestIdCounter s1;
     electron := electron s1; now := now s1; timers := timers s1;
     promises := promises s1;
     posted := posted s1; imageLoads := imageLoads s1;
     calls := calls s1; issued := issued s1 |}.

(** [terminate()]. *)
Definition terminate (s : t) : t :=
  let s1 :=
    foldl (λ s request, callback request (Rejected "Service terminated") s)
      s (JSMap.values (pendingRequests s)) in
  {| worker := false;
     workerInitialized := if worker s then false else workerInitialized s;
     pendingRequests := [];
     requestIdCounter := requestIdCounter s1;
     electron := electron s1; now := now s1; timers := timers s1;
     promises := promises s1;
     posted := posted s1; imageLoads := imageLoads s1;
     calls := calls s1; issued := issued s1 |}.

(** The callback of the [setTimeout] of [decodeImage] for the request [i]. *)
Definition timeoutCallback (i : string) (s : t) : t :=
  match JSMap.get i (pendingRequests s) with
  | Some request =>
      callback request (Rejected "Image decode timeout")
        (withPending (JSMap.delete i (pendingRequests s)) s)
  | None => s
  end.

(** [url.startsWith("local-file://") && window.electron]. *)
Definition needsConversion (url : string) (s : t) : bool :=
  String.prefix "local-file://" url && electron s.

(** [decodeImageMainThread(imageUrl)]: the promise is rejected when the
    conversion fails, and otherwise waits for the image to load; no timer is
    set. *)
Definition decodeImageMainThread (url : string) (conv : conversion) (s : t) : t :=
  let p := length (promises s) in
  let failed :=
    if needsConversion url s then
      match conv with
      | ConversionFailed e => Some ("Cannot load local file: " +:+ e)
      | Converted _ => None
      end
    else None in
  {| worker := worker s; workerInitialized := workerInitialized s;
     pendingRequests := pendingRequests s;
     requestIdCounter := requestIdCounter s;
     electron := electron s; now := now s; timers := timers s;
     promises := promises s ++
                 [match failed with Some e => Rejected e | None => Pending end];
     posted := posted s;
     imageLoads := match failed with
                   | Some _ => imageLoads s
                   | None => imageLoads s ++ [p]
                   end;
     calls := calls s; issued := issued s |}.

(** The worker path of [decodeImage], from the allocation of the id on. *)
Definition decodeImageWorker (processedImageUrl : string)
    (opts : option string) (s : t) : t :=
  let n := S (requestIdCounter s) in
  let i := decodeId n in
  let p := length (promises s) in
  {| worker := worker s; workerInitialized := workerInitialized s;
     pendingRequests := JSMap.set i p (pendingRequests s);
     requestIdCounter := n;
     electron := electron s; now := now s;
     timers := timers s ++ [((now s + TIMEOUT)%Z, i)];
     promises := promises s ++ [Pending];
     posted := posted s ++
               [{| requestId := i; imageUrl := processedImageUrl;
                   options := opts |}];
     imageLoads := imageLoads s;
     calls := calls s; issued := issued s ++ [i] |}.

(** Whether [decodeImage(url)] reaches the worker path: the worker is there,
    and the conversion of a local file, when one is needed, succeeded. *)
Definition reachesWorker (url : string) (conv1 : conversion) (s : t) : bool :=
  worker s && workerInitialized s &&
  (negb (needsConversion url s) ||
   match conv1 with Converted _ => true | ConversionFailed _ => false end).

(** [decodeImage(imageUrl, options)]; [conv1] and [conv2] are the outcomes of
    the conversions it and [decodeImageMainThread] may await.  The promise it
    returns is the new last one of [promises]. *)
Definition decodeImage (url : string) (opts : option string)
    (conv1 conv2 : conversion) (s : t) : t :=
  if negb (worker s && workerInitialized s) then
    decodeImageMainThread url conv2 s
  else if needsConversion url s then
    match conv1 with
    | Converted processedImageUrl => decodeImageWorker processedImageUrl opts s
    | ConversionFailed _ => decodeImageMainThread url conv2 s
    end
  else decodeImageWorker url opts s.

(** Time passes: every timer that is due runs, in the order it was set. *)
Definition tick (dt : Z) (s : t) : t :=
  let now' := (now s + Z.max dt 0)%Z in
  let s1 :=
    foldl (λ s '(deadline, i),
             if (deadline <=? now')%Z then timeoutCallback i s else s)
      s (timers s) in
  {| worker := worker s1; workerInitialized := workerInitialized s1;
     pendingRequests := pendingRequests s1;
     requestIdCounter := requestIdCounter s1;
     electron := electron s1; now := now';
     timers := filter (λ t, (now' < t.1)%Z) (timers s);
     promises := promises s1;
     posted := posted s1; imageLoads := imageLoads s1;
     calls := calls s1; issued := issued s1 |}.

(** [img.onload] or [img.onerror] of the main-thread path. *)
Definition imageEvent (p : nat) (outcome : promise DecodedImageResult) (s : t) : t :=
  if bool_decide (p ∈ imageLoads s) then
    {| worker := worker s; workerInitialized := workerInitialized s;
       pendingRequests := pendingRequests s;
       requestIdCounter := requestIdCounter s;
       electron := electron s; now := now s; timers := timers s;
       promises := settle p outcome (promises s);
       posted := posted s; imageLoads := imageLoads s;
       calls := calls s; issued := issued s |}
  else s.

Inductive event : Type :=
| DecodeImage (url : string) (opts : option string) (conv1 conv2 : conversion)
| WorkerMessage (r : ImageDecodeResponse) (ctxOk : bool)
| WorkerError (message : string) (reinitOk : bool)
| Terminate
| Tick (dt : Z)
| ImageLoaded (p : nat) (img : HTMLImageElement)
| ImageFailed (p : nat) (message : string).

Definition step (s : t) (e : event) : t :=
  match e with
  | DecodeImage url opts conv1 conv2 => decodeImage url opts conv1 conv2 s
  | WorkerMessage r ctxOk => handleWorkerMessage r ctxOk s
  | WorkerError message reinitOk => handleWorkerError message reinitOk s
  | Terminate => terminate s
  | Tick dt => tick dt s
  | ImageLoaded p img => imageEvent p (Resolved (ResultFallbackImage img)) s
  | ImageFailed p message =>
      imageEvent p (Rejected ("Failed to load image: " +:+ message)) s
  end.

Definition run (s : t) (evs : list event) : t := foldl step s evs.

(** Events that leave the request [i] to its timeout: no response of the
    worker for [i], no worker error, no [terminate()]. *)
Definition quietFor (i : string) (e : event) : bool :=
  match e with
  | WorkerMessage r _ => negb (bool_decide (id r = i))
  | WorkerError _ _ | Terminate => false
  | _ => true
  end.

(** *** Invariants of the service *)

(** The invariant, on the fields it speaks about: the table holds every id
    once and every promise once; the promises it holds exist, have not been
    called back and are not image loads; no promise was called back twice;
    the ids issued are [decode_1] ... [decode_n] for the counter [n]; the
    table and the timers hold issued ids only. *)
Record InvOn (pending : list (string * nat)) (npromises : nat)
    (called : list nat) (ids : list string) (counter : nat)
    (loads : list nat) (timerIds : list string) : Prop := {
  inv_wf : JSMap.wf pending;
  inv_handles_nodup : NoDup (JSMap.values pending);
  inv_handles_lt : ∀ q, q ∈ JSMap.values pending → q < npromises;
  inv_handles_uncalled : ∀ q, q ∈ JSMap.values pending → q ∉ called;
  inv_handles_not_loads : ∀ q, q ∈ JSMap.values pending → q ∉ loads;
  inv_calls_nodup : NoDup called;
  inv_calls_lt : ∀ q, q ∈ called → q < npromises;
  inv_loads_lt : ∀ q, q ∈ loads → q < npromises;
  inv_issued : ids = decodeId <$> seq 1 counter;
  inv_keys_issued : ∀ i, i ∈ JSMap.keys pending → i ∈ ids;
  inv_timers_issued : ∀ i, i ∈ timerIds → i ∈ ids
}.

Definition Inv (s : t) : Prop :=
  InvOn (pendingRequests s) (length (promises s)) (calls s) (issued s)
    (requestIdCounter s) (imageLoads s) (timers s).*2.

Lemma create_Inv workerOk el : Inv (create workerOk el).
Proof.
  split; simpl; try apply NoDup_nil_2; try done;
    intros ? Hq; inversion Hq.
Qed.

Global Instance decodeId_inj : Inj (=) (=) decodeId.
Proof.
  intros n m Heq. unfold decodeId in Heq. simpl in Heq.
  injection Heq as Heq. by apply (inj pretty).
Qed.

Lemma fresh_id ids counter :
  ids = decodeId <$> seq 1 counter → decodeId (S counter) ∉ ids.
Proof.
  intros -> Hin. apply list_elem_of_fmap in Hin as (k & Heq & Hk).
  apply (inj decodeId) in Heq. subst k.
  apply elem_of_seq in Hk. lia.
Qed.

Lemma length_settle p o ps : length (settle p o ps) = length ps.
Proof.
  unfold settle. destruct (ps !! p) as [[| |]|]; try done.
  by rewrite length_insert.
Qed.

Lemma settle_lookup_ne p q o ps : p ≠ q → settle q o ps !! p = ps !! p.
Proof.
  intros Hne. unfold settle. destruct (ps !! q) as [[| |]|]; try done.
  by rewrite list_lookup_insert_ne.
Qed.

Lemma settle_lookup_settled p q o ps x :
  ps !! p = Some x → x ≠ Pending → settle q o ps !! p = Some x.
Proof.
  intros Hp Hx. destruct (decide (p = q)) as [->|Hne].
  - unfold settle. rewrite Hp. by destruct x.
  - by rewrite settle_lookup_ne.
Qed.

Lemma settle_lookup_pending p o ps :
  ps !! p = Some Pending → settle p o ps !! p = Some o.
Proof.
  intros Hp. unfold settle. rewrite Hp.
  apply list_lookup_insert_eq. by eapply lookup_lt_Some.
Qed.

(** Taking a request out of the table and calling it back. *)
Lemma take_Inv i q o s :
  Inv s → JSMap.get i (pendingRequests s) = Some q →
  Inv (callback q o (withPending (JSMap.delete i (pendingRequests s)) s)).
Proof.
  intros HI Hg. destruct HI.
  destruct (JSMap.get_Some_perm i q _ Hg) as [_ Hvals].
  assert (NoDup (q :: JSMap.values (JSMap.delete i (pendingRequests s))))
    as Hnd by by rewrite <- Hvals.
  apply NoDup_cons in Hnd as [Hq Hnd].
  assert (∀ x, x ∈ JSMap.values (JSMap.delete i (pendingRequests s)) →
               x ∈ JSMap.values (pendingRequests s)) as Hsub.
  { intros x Hx. rewrite Hvals. by right. }
  assert (q ∈ JSMap.values (pendingRequests s)) as Hqin.
  { rewrite Hvals. by left. }
  split; simpl; rewrite ?length_settle.
  - by apply JSMap.delete_wf.
  - done.
  - intros x Hx. by apply inv_handles_lt0, Hsub.
  - intros x Hx. apply not_elem_of_app. split.
    + by apply inv_handles_uncalled0, Hsub.
    + apply not_elem_of_cons. split; [|apply not_elem_of_nil].
      intros ->. done.
  - intros x Hx. by apply inv_handles_not_loads0, Hsub.
  - apply NoDup_app. split; [done|]. split; [|apply NoDup_singleton].
    intros x Hx Hx'. apply list_elem_of_singleton in Hx'. subst x.
    by apply (inv_handles_uncalled0 q).
  - intros x Hx. apply elem_of_app in Hx as [Hx|Hx]; [by apply inv_calls_lt0|].
    apply list_elem_of_singleton in Hx. subst x. by apply inv_handles_lt0.
  - done.
  - done.
  - intros j Hj. apply inv_keys_issued0.
    by apply (JSMap.keys_delete_subseteq i).
  - done.
Qed.

Lemma timeoutCallback_Inv i s : Inv s → Inv (timeoutCallback i s).
Proof.
  intros HI. unfold timeoutCallback.
  destruct (JSMap.get i (pendingRequests s)) eqn:Hg; [|done].
  by apply take_Inv.
Qed.

Lemma handleWorkerMessage_Inv r ctxOk s : Inv s → Inv (handleWorkerMessage r ctxOk s).
Proof.
  intros HI. unfold handleWorkerMessage.
  destruct (JSMap.get (id r) (pendingRequests s)) eqn:Hg; [|done].
  destruct (success r); by apply take_Inv.
Qed.

(** Calling back a list of promises, as the loops of [handleWorkerError] and
    [terminate] do. *)
Lemma callbacks_fields o qs s :
  let s1 := foldl (λ s q, callback q o s) s qs in
  pendingRequests s1 = pendingRequests s ∧
  length (promises s1) = length (promises s) ∧
  calls s1 = calls s ++ qs ∧ issued s1 = issued s ∧
  requestIdCounter s1 = requestIdCounter s ∧ imageLoads s1 = imageLoads s ∧
  timers s1 = timers s.
Proof.
  revert s. induction qs as [|q qs IH]; intros s; simpl.
  - by rewrite app_nil_r.
  - destruct (IH (callback q o s)) as (-> & -> & -> & -> & -> & -> & ->).
    simpl. rewrite length_settle. by rewrite <- app_assoc.
Qed.

Lemma reject_all_Inv o s :
  Inv s →
  let s1 := foldl (λ s q, callback q o s) s (JSMap.values (pendingRequests s)) in
  InvOn [] (length (promises s1)) (calls s1) (issued s1)
    (requestIdCounter s1) (imageLoads s1) (timers s1).*2.
Proof.
  intros HI s1.
  destruct (callbacks_fields o (JSMap.values (pendingRequests s)) s)
    as (_ & Hlen & Hcalls & Hiss & Hcnt & Hloads & Htim).
  fold s1 in Hlen, Hcalls, Hiss, Hcnt, Hloads, Htim.
  rewrite Hlen, Hcalls, Hiss, Hcnt, Hloads, Htim. destruct HI.
  split; try done; try (by intros ? Hq; inversion Hq); try apply NoDup_nil_2.
  - apply NoDup_app. split; [done|]. split; [|done].
    intros q Hq Hq'. by apply (inv_handles_uncalled0 q).
  - intros q Hq. apply elem_of_app in Hq as [Hq|Hq];
      [by apply inv_calls_lt0 | by apply inv_handles_lt0].
Qed.

Lemma decodeImageWorker_Inv url opts s : Inv s → Inv (decodeImageWorker url opts s).
Proof.
  intros HI. destruct HI.
  pose proof (fresh_id _ _ inv_issued0) as Hfresh.
  assert (decodeId (S (requestIdCounter s)) ∉ JSMap.keys (pendingRequests s))
    as Hnew by (intros Hin; by apply Hfresh, inv_keys_issued0).
  unfold Inv, decodeImageWorker.
  cbn [pendingRequests promises calls issued requestIdCounter imageLoads timers].
  split; rewrite ?length_app; cbn [length].
  - by apply JSMap.set_absent_wf.
  - rewrite JSMap.values_set_absent by done.
    apply NoDup_app. split; [done|]. split; [|apply NoDup_singleton].
    intros q Hq Hq'. apply list_elem_of_singleton in Hq'. subst q.
    apply inv_handles_lt0 in Hq. lia.
  - intros q. rewrite JSMap.values_set_absent by done.
    intros [Hq|Hq]%elem_of_app.
    + apply inv_handles_lt0 in Hq. lia.
    + apply list_elem_of_singleton in Hq. lia.
  - intros q. rewrite JSMap.values_set_absent by done.
    intros [Hq|Hq]%elem_of_app; [by apply inv_handles_uncalled0|].
    apply list_elem_of_singleton in Hq. subst q.
    intros Hc. apply inv_calls_lt0 in Hc. lia.
  - intros q. rewrite JSMap.values_set_absent by done.
    intros [Hq|Hq]%elem_of_app; [by apply inv_handles_not_loads0|].
    apply list_elem_of_singleton in Hq. subst q.
    intros Hc. apply inv_loads_lt0 in Hc. lia.
  - done.
  - intros q Hq. apply inv_calls_lt0 in Hq. lia.
  - intros q Hq. apply inv_loads_lt0 in Hq. lia.
  - rewrite inv_issued0. by rewrite seq_S, fmap_app.
  - intros i. rewrite JSMap.keys_set_absent by done.
    intros [Hi|Hi]%elem_of_app; apply elem_of_app; [left | by right].
    by apply inv_keys_issued0.
  - intros i. rewrite fmap_app.
    intros [Hi|Hi]%elem_of_app; apply elem_of_app; [left | by right].
    by apply inv_timers_issued0.
Qed.

Lemma decodeImageMainThread_Inv url conv s :
  Inv s → Inv (decodeImageMainThread url conv s).
Proof.
  intros HI. destruct HI.
  split; simpl; rewrite ?length_app; simpl; try done.
  - intros q Hq. apply inv_handles_lt0 in Hq. lia.
  - intros q Hq. destruct (if needsConversion url s then _ else _);
      [by apply inv_handles_not_loads0|].
    apply not_elem_of_app. split; [by apply inv_handles_not_loads0|].
    apply not_elem_of_cons. split; [|apply not_elem_of_nil].
    apply inv_handles_lt0 in Hq. lia.
  - intros q Hq. apply inv_calls_lt0 in Hq. lia.
  - intros q. destruct (if needsConversion url s then _ else _).
    + intros Hq. apply inv_loads_lt0 in Hq. lia.
    + intros [Hq|Hq]%elem_of_app.
      * apply inv_loads_lt0 in Hq. lia.
      * apply list_elem_of_singleton in Hq. lia.
Qed.

Lemma decodeImage_Inv url opts conv1 conv2 s :
  Inv s → Inv (decodeImage url opts conv1 conv2 s).
Proof.
  intros HI. unfold decodeImage.
  destruct (negb _); [by apply decodeImageMainThread_Inv|].
  destruct (needsConversion url s); [|by apply decodeImageWorker_Inv].
  destruct conv1;
    [by apply decodeImageWorker_Inv | by apply decodeImageMainThread_Inv].
Qed.

Lemma timers_fold_Inv now' l s :
  Inv s →
  Inv (foldl (λ s '(deadline, i),
                if (deadline <=? now')%Z then timeoutCallback i s else s) s l).
Proof.
  revert s. induction l as [|[d i] l IH]; intros s HI; [done|].
  simpl. apply IH. destruct (d <=? now')%Z; [by apply timeoutCallback_Inv | done].
Qed.

Lemma timers_fold_fields now' l s :
  let s1 := foldl (λ s '(deadline, i),
                     if (deadline <=? now')%Z then timeoutCallback i s else s)
              s l in
  issued s1 = issued s ∧ timers s1 = timers s.
Proof.
  revert s. induction l as [|[d j] l IH]; intros s; [done|].
  simpl. destruct (IH (if (d <=? now')%Z then timeoutCallback j s else s))
    as [-> ->].
  destruct (d <=? now')%Z; [|done].
  unfold timeoutCallback. by destruct (JSMap.get j (pendingRequests s)).
Qed.

Lemma tick_Inv dt s : Inv s → Inv (tick dt s).
Proof.
  intros HI.
  pose proof (timers_fold_Inv (now s + Z.max dt 0)%Z (timers s) s HI) as HI1.
  destruct (timers_fold_fields (now s + Z.max dt 0)%Z (timers s) s)
    as [Hiss Htim].
  destruct HI1. split; try done.
  unfold tick. cbn [timers issued]. rewrite Hiss. intros i Hi.
  destruct HI. apply inv_timers_issued1.
  eapply elem_of_sublist; [exact Hi|]. apply fmap_sublist, sublist_filter.
Qed.

Lemma service_step_Inv s e : Inv s → Inv (step s e).
Proof.
  intros HI. destruct e as [url opts c1 c2|r ctxOk|msg ok| |dt|p img|p msg]; simpl.
  - by apply decodeImage_Inv.
  - by apply handleWorkerMessage_Inv.
  - by apply reject_all_Inv.
  - by apply reject_all_Inv.
  - by apply tick_Inv.
  - unfold imageEvent. destruct (bool_decide _); [|done].
    unfold Inv. simpl. by rewrite length_settle.
  - unfold imageEvent. destruct (bool_decide _); [|done].
    unfold Inv. simpl. by rewrite length_settle.
Qed.

Lemma service_run_Inv evs s : Inv s → Inv (run s evs).
Proof.
  revert s. induction evs as [|e evs IH]; intros s HI; [done|].
  simpl. apply IH. by apply service_step_Inv.
Qed.

(** *** One request, from its dispatch to its timeout *)

Section Timeout.
Variables (i : string) (p : nat) (deadline : Z).

(** The request [i] is in the table and its promise [p] is pending. *)
Definition Live (s : t) : Prop :=
  JSMap.get i (pendingRequests s) = Some p ∧
  promises s !! p = Some Pending ∧
  p ∉ imageLoads s.

(** The request [i] left the table and its promise was rejected by the
    timeout. *)
Definition TimedOut (s : t) : Prop :=
  JSMap.get i (pendingRequests s) = None ∧
  promises s !! p = Some (Rejected "Image decode timeout").

Definition Status (s : t) : Prop :=
  ((now s < deadline)%Z → Live s) ∧ ((deadline ≤ now s)%Z → TimedOut s).

Definition TimerSet (s : t) : Prop :=
  ((now s < deadline)%Z → (deadline, i) ∈ timers s) ∧
  (∀ d, (d, i) ∈ timers s → d = deadline).

Lemma take_Live j q o s :
  Inv s → j ≠ i → JSMap.get j (pendingRequests s) = Some q →
  Live s → Live (callback q o (withPending (JSMap.delete j (pendingRequests s)) s)).
Proof.
  intros HI Hne Hg (Hi & Hp & Hl). destruct HI.
  assert (p ≠ q) as Hpq.
  { intros ->. apply Hne. by apply (JSMap.get_inj j i q (pendingRequests s)). }
  split; [|split]; simpl.
  - by rewrite JSMap.get_delete_ne by done.
  - by rewrite settle_lookup_ne.
  - done.
Qed.

Lemma take_TimedOut j q o s :
  TimedOut s →
  TimedOut (callback q o (withPending (JSMap.delete j (pendingRequests s)) s)).
Proof.
  intros (Hi & Hp). split; simpl.
  - apply JSMap.get_None_iff. apply JSMap.get_None_iff in Hi.
    intros Hin. apply Hi. by apply (JSMap.keys_delete_subseteq j).
  - by apply (settle_lookup_settled p q o _ _ Hp).
Qed.

Lemma timeoutCallback_Live j s :
  Inv s → j ≠ i → Live s → Live (timeoutCallback j s).
Proof.
  intros HI Hne HL. unfold timeoutCallback.
  destruct (JSMap.get j (pendingRequests s)) eqn:Hg; [|done].
  by apply take_Live.
Qed.

Lemma timeoutCallback_TimedOut j s : TimedOut s → TimedOut (timeoutCallback j s).
Proof.
  intros HT. unfold timeoutCallback.
  destruct (JSMap.get j (pendingRequests s)) eqn:Hg; [|done].
  by apply take_TimedOut.
Qed.

Lemma timeoutCallback_fires s : Inv s → Live s → TimedOut (timeoutCallback i s).
Proof.
  intros HI (Hi & Hp & _). unfold timeoutCallback. rewrite Hi.
  destruct HI. split; simpl.
  - by apply JSMap.get_delete_eq.
  - by apply settle_lookup_pending.
Qed.

Lemma timers_fold_target now' l s :
  Inv s → (∀ d, (d, i) ∈ l → d = deadline) →
  let s1 := foldl (λ s '(d, j),
                     if (d <=? now')%Z then timeoutCallback j s else s) s l in
  (TimedOut s → TimedOut s1) ∧
  (Live s →
     ((now' < deadline)%Z → Live s1) ∧
     ((deadline ≤ now')%Z → (deadline, i) ∈ l → TimedOut s1)).
Proof.
  revert s. induction l as [|[d j] l IH]; intros s HI Hl; simpl.
  { split; [done|]. intros HL. split; [done|]. intros _ Hin. inversion Hin. }
  assert (∀ d', (d', i) ∈ l → d' = deadline) as Hl'.
  { intros d' Hd'. apply Hl. by right. }
  destruct (Z.leb_spec d now') as [Hdue|Hnot].
  - destruct (IH (timeoutCallback j s) (timeoutCallback_Inv j s HI) Hl')
      as [IHT IHL].
    split.
    + intros HT. by apply IHT, timeoutCallback_TimedOut.
    + intros HL. destruct (decide (j = i)) as [->|Hne].
      * assert (d = deadline) as -> by (apply Hl; left).
        split; [lia|]. intros _ _. by apply IHT, timeoutCallback_fires.
      * destruct (IHL (timeoutCallback_Live j s HI Hne HL)) as [IH1 IH2].
        split; [done|]. intros Hd Hin. apply IH2; [done|].
        apply elem_of_cons in Hin as [Heq|Hin]; [congruence | done].
  - destruct (IH s HI Hl') as [IHT IHL]. split; [done|].
    intros HL. destruct (IHL HL) as [IH1 IH2]. split; [done|].
    intros Hd Hin. apply IH2; [done|].
    apply elem_of_cons in Hin as [Heq|Hin]; [|done].
    injection Heq as -> ->. lia.
Qed.

Lemma decodeImageWorker_target url opts s :
  Inv s → i ∈ issued s →
  (Live s → Live (decodeImageWorker url opts s)) ∧
  (TimedOut s → TimedOut (decodeImageWorker url opts s)).
Proof.
  intros HI Hi.
  assert (i ≠ decodeId (S (requestIdCounter s))) as Hne.
  { intros ->. destruct HI. by apply (fresh_id _ _ inv_issued0). }
  split.
  - intros (Hg & Hp & Hl). split; [|split]; simpl.
    + by rewrite JSMap.get_set_ne.
    + rewrite lookup_app_l; [done|]. by eapply lookup_lt_Some.
    + done.
  - intros (Hg & Hp). split; simpl.
    + by rewrite JSMap.get_set_ne.
    + rewrite lookup_app_l; [done|]. by eapply lookup_lt_Some.
Qed.

Lemma decodeImageMainThread_target url conv s :
  (Live s → Live (decodeImageMainThread url conv s)) ∧
  (TimedOut s → TimedOut (decodeImageMainThread url conv s)).
Proof.
  split.
  - intros (Hg & Hp & Hl). split; [|split]; simpl.
    + done.
    + rewrite lookup_app_l; [done|]. by eapply lookup_lt_Some.
    + destruct (if needsConversion url s then _ else _); [done|].
      apply not_elem_of_app. split; [done|].
      apply not_elem_of_cons. split; [|apply not_elem_of_nil].
      apply lookup_lt_Some in Hp. lia.
  - intros (Hg & Hp). split; simpl; [done|].
    rewrite lookup_app_l; [done|]. by eapply lookup_lt_Some.
Qed.

Lemma decodeImage_target url opts conv1 conv2 s :
  Inv s → i ∈ issued s →
  (Live s → Live (decodeImage url opts conv1 conv2 s)) ∧
  (TimedOut s → TimedOut (decodeImage url opts conv1 conv2 s)).
Proof.
  intros HI Hi. unfold decodeImage.
  destruct (negb _); [apply decodeImageMainThread_target|].
  destruct (needsConversion url s); [|by apply decodeImageWorker_target].
  destruct conv1;
    [by apply decodeImageWorker_target | apply decodeImageMainThread_target].
Qed.

Lemma decodeImage_fields url opts conv1 conv2 s :
  let s' := decodeImage url opts conv1 conv2 s in
  now s' = now s ∧
  (timers s' = timers s ∨
   timers s' = timers s ++ [((now s + TIMEOUT)%Z, decodeId (S (requestIdCounter s)))]) ∧
  (issued s' = issued s ∨
   issued s' = issued s ++ [decodeId (S (requestIdCounter s))]).
Proof.
  unfold decodeImage.
  destruct (negb _); [by split; [|split; left]|].
  destruct (needsConversion url s); [|by split; [|split; right]].
  destruct conv1; [by split; [|split; right] | by split; [|split; left]].
Qed.

Lemma imageEvent_target q o s :
  (Live s → Live (imageEvent q o s)) ∧ (TimedOut s → TimedOut (imageEvent q o s)).
Proof.
  unfold imageEvent. destruct (bool_decide (q ∈ imageLoads s)) eqn:Hq; [|done].
  apply bool_decide_eq_true in Hq. split.
  - intros (Hg & Hp & Hl). split; [|split]; simpl; [done| |done].
    rewrite settle_lookup_ne; [done|]. by intros ->.
  - intros (Hg & Hp). split; simpl; [done|].
    by apply (settle_lookup_settled p q o _ _ Hp).
Qed.

Lemma timers_fold_issued now' l s :
  issued (foldl (λ s '(d, j),
                   if (d <=? now')%Z then timeoutCallback j s else s) s l)
  = issued s.
Proof.
  revert s. induction l as [|[d j] l IH]; intros s; [done|].
  simpl. rewrite IH. destruct (d <=? now')%Z; [|done].
  unfold timeoutCallback. by destruct (JSMap.get j (pendingRequests s)).
Qed.

Lemma tick_issued dt s : issued (tick dt s) = issued s.
Proof. unfold tick. cbn [issued]. apply timers_fold_issued. Qed.

(** One step that leaves the request to its timeout. *)
Lemma step_target s e :
  Inv s → i ∈ issued s → quietFor i e = true →
  Status s → TimerSet s →
  Status (step s e) ∧ TimerSet (step s e) ∧ i ∈ issued (step s e) ∧
  (now s ≤ now (step s e))%Z.
Proof.
  intros HI Hi Hq [HL HT] [Hset Huniq].
  destruct e as [url opts c1 c2|r ctxOk|msg ok| |dt|q img|q msg];
    simpl in Hq; try done; cbn [step].
  - destruct (decodeImage_target url opts c1 c2 s HI Hi) as [HL' HT'].
    destruct (decodeImage_fields url opts c1 c2 s) as (Hnow & Htim & Hiss).
    assert (i ≠ decodeId (S (requestIdCounter s))) as Hne.
    { intros ->. destruct HI. by apply (fresh_id _ _ inv_issued0). }
    unfold Status, TimerSet. rewrite Hnow.
    split; [split; auto|]. split; [|split; [|lia]].
    + destruct Htim as [->| ->]; [done|]. split.
      * intros Hlt. apply elem_of_app. left. auto.
      * intros d [Hd|Hd]%elem_of_app; [by apply Huniq|].
        apply list_elem_of_singleton in Hd. congruence.
    + destruct Hiss as [->| ->]; [done|]. apply elem_of_app. by left.
  - apply negb_true_iff, bool_decide_eq_false in Hq.
    unfold handleWorkerMessage.
    destruct (JSMap.get (id r) (pendingRequests s)) eqn:Hg; [|done].
    destruct (success r); (split; [split|done]); intros Hnow.
    + by apply take_Live; auto.
    + by apply take_TimedOut; auto.
    + by apply take_Live; auto.
    + by apply take_TimedOut; auto.
  - set (now' := (now s + Z.max dt 0)%Z).
    destruct (timers_fold_target now' (timers s) s HI Huniq) as [FT FL].
    split; [split|split; [split|split; [by rewrite tick_issued|simpl; lia]]];
      simpl; fold now'.
    + intros Hlt. apply FL; [apply HL; lia | done].
    + intros Hge. destruct (Z.lt_ge_cases (now s) deadline) as [Hlt|Hnow].
      * apply FL; [by apply HL | done | by apply Hset].
      * by apply FT, HT.
    + intros Hlt. apply list_elem_of_filter. split; [done|].
      apply Hset. lia.
    + intros d Hd. apply list_elem_of_filter in Hd as [_ Hd]. by apply Huniq.
  - destruct (imageEvent_target q (Resolved (ResultFallbackImage img)) s)
      as [HL' HT'].
    assert (∀ o, now (imageEvent q o s) = now s ∧
                 timers (imageEvent q o s) = timers s ∧
                 issued (imageEvent q o s) = issued s) as Hf.
    { intros o. unfold imageEvent. by destruct (bool_decide _). }
    destruct (Hf (Resolved (ResultFallbackImage img))) as (Hn & Ht & Hs).
    unfold TimerSet, Status. rewrite Hn, Ht, Hs.
    split; [split; auto|]. split; [done|]. split; [done|lia].
  - destruct (imageEvent_target q (Rejected ("Failed to load image: " +:+ msg)) s)
      as [HL' HT'].
    assert (∀ o, now (imageEvent q o s) = now s ∧
                 timers (imageEvent q o s) = timers s ∧
                 issued (imageEvent q o s) = issued s) as Hf.
    { intros o. unfold imageEvent. by destruct (bool_decide _). }
    destruct (Hf (Rejected ("Failed to load image: " +:+ msg))) as (Hn & Ht & Hs).
    unfold TimerSet, Status. rewrite Hn, Ht, Hs.
    split; [split; auto|]. split; [done|]. split; [done|lia].
Qed.

Lemma run_target evs s :
  Inv s → i ∈ issued s → forallb (quietFor i) evs = true →
  Status s → TimerSet s →
  Status (run s evs) ∧ i ∈ issued (run s evs) ∧ (now s ≤ now (run s evs))%Z.
Proof.
  revert s. induction evs as [|e evs IH]; intros s HI Hi Hq HS HT.
  { simpl. split; [done|]. split; [done | lia]. }
  simpl in Hq. apply andb_true_iff in Hq as [He Hq].
  destruct (step_target s e HI Hi He HS HT) as (HS' & HT' & Hi' & Hnow).
  destruct (IH (step s e) (service_step_Inv s e HI) Hi' Hq HS' HT')
    as (HS'' & Hi'' & Hnow').
  simpl. split; [done|]. split; [done | lia].
Qed.

End Timeout.

(** The URL [decodeImage] posts to the worker. *)
Definition processedImageUrl (url : string) (conv1 : conversion) (s : t) : string :=
  if needsConversion url s then
    match conv1 with Converted u => u | ConversionFailed _ => url end
  else url.

Lemma decodeImage_reaches url opts conv1 conv2 s :
  reachesWorker url conv1 s = true →
  decodeImage url opts conv1 conv2 s
  = decodeImageWorker (processedImageUrl url conv1 s) opts s.
Proof.
  unfold reachesWorker, decodeImage, processedImageUrl.
  intros [Hw Hc]%andb_true_iff. rewrite Hw. simpl.
  destruct (needsConversion url s); [|done].
  destruct conv1; [done | discriminate].
Qed.

(** What a request that reaches the worker leaves behind. *)
Lemma decodeImageWorker_dispatch url opts s :
  Inv s →
  let i := decodeId (S (requestIdCounter s)) in
  let p := length (promises s) in
  let s1 := decodeImageWorker url opts s in
  Live i p s1 ∧ TimerSet i (now s + TIMEOUT) s1 ∧ i ∈ issued s1 ∧
(i ∉ issued s) ∧ now s1 = now s.
Proof.
  intros HI i p s1. destruct HI.
  pose proof (fresh_id _ _ inv_issued0) as Hfresh. fold i in Hfresh.
  split; [split; [|split]|split; [split|split; [|done]]]; simpl.
  - apply JSMap.get_set_eq.
  - rewrite lookup_app_r by done. by rewrite Nat.sub_diag.
  - intros Hin. apply inv_loads_lt0 in Hin. unfold p in Hin. lia.
  - intros _. apply elem_of_app. right. by left.
  - intros d [Hd|Hd]%elem_of_app.
    + (* a timer for [i] set earlier would mean [i] was issued earlier *)
      exfalso. apply Hfresh, inv_timers_issued0.
      apply list_elem_of_fmap. by exists (d, i).
    + apply list_elem_of_singleton in Hd. congruence.
  - apply elem_of_app. right. by left.
Qed.

End ImageDecoderService.




(** C10.  In every reachable state of the service: the ids issued so far are
    [decode_1], ..., [decode_n] for the counter [n], all different; a request
    that reaches the worker increments the counter and gets an id that was
    never issued; a response of the worker whose id is not in the table
    changes nothing, so it settles no promise; no promise was called back
    through the table more than once, and none of those still in the table
    was called back.  In particular a response that arrives after the timeout
    removed its id is ignored. *)
Theorem C10_fresh_ids_and_unknown_responses
    (workerOk el : bool) (evs : list ImageDecoderService.event) :
  let s := ImageDecoderService.run (ImageDecoderService.create workerOk el) evs in
  ImageDecoderService.issued s
  = ImageDecoderService.decodeId <$> seq 1 (ImageDecoderService.requestIdCounter s) ∧
  NoDup (ImageDecoderService.issued s) ∧
  (∀ url opts c1 c2,
     ImageDecoderService.reachesWorker url c1 s = true →
     let s' := ImageDecoderService.step s
                 (ImageDecoderService.DecodeImage url opts c1 c2) in
     let i := ImageDecoderService.decodeId
                (S (ImageDecoderService.requestIdCounter s)) in
     ImageDecoderService.requestIdCounter s'
     = S (ImageDecoderService.requestIdCounter s) ∧
     ImageDecoderService.issued s' = ImageDecoderService.issued s ++ [i] ∧
     (i ∉ ImageDecoderService.issued s) ∧
     JSMap.has i (ImageDecoderService.pendingRequests s) = false ∧
     JSMap.has i (ImageDecoderService.pendingRequests s') = true) ∧
  (∀ r ctxOk,
     JSMap.has (ImageDecoderService.id r)
       (ImageDecoderService.pendingRequests s) = false →
     ImageDecoderService.step s (ImageDecoderService.WorkerMessage r ctxOk) = s) ∧
  NoDup (ImageDecoderService.calls s) ∧
  (∀ q, q ∈ JSMap.values (ImageDecoderService.pendingRequests s) →
        q ∉ ImageDecoderService.calls s) ∧
  (let late :=
     ImageDecoderService.run (ImageDecoderService.create true false)
       [ImageDecoderService.DecodeImage "https://example.com/a.png" None
          (ImageDecoderService.ConversionFailed "")
          (ImageDecoderService.ConversionFailed "");
        ImageDecoderService.Tick 30000] in
   ImageDecoderService.promises late = [Rejected "Image decode timeout"] ∧
   ImageDecoderService.step late
     (ImageDecoderService.WorkerMessage
        {| ImageDecoderService.id := "decode_1";
           ImageDecoderService.success := true;
           ImageDecoderService.imageBitmap :=
             Some {| ImageDecoderService.bitmapWidth := 640;
                     ImageDecoderService.bitmapHeight := 480 |};
           ImageDecoderService.error := None;
           ImageDecoderService.fallbackImageData := None |} true)
   = late).
Proof.
  intros s.
  assert (ImageDecoderService.Inv s) as HI.
  { apply ImageDecoderService.service_run_Inv, ImageDecoderService.create_Inv. }
  destruct HI.
  pose proof (ImageDecoderService.fresh_id _ _ inv_issued) as Hfresh.
  split; [done|]. split.
  { rewrite inv_issued. apply (NoDup_fmap_2 _). apply NoDup_seq. }
  split.
  { intros url opts c1 c2 Hreach s' i. unfold s'.
    cbn [ImageDecoderService.step].
    rewrite ImageDecoderService.decodeImage_reaches by done.
    cbn [ImageDecoderService.decodeImageWorker
         ImageDecoderService.requestIdCounter ImageDecoderService.issued
         ImageDecoderService.pendingRequests].
    split; [done|]. split; [done|]. split; [done|]. split.
    - apply JSMap.has_false_iff. intros Hin. by apply Hfresh, inv_keys_issued.
    - unfold JSMap.has. by rewrite JSMap.get_set_eq. }
  split.
  { intros r ctxOk Hhas. cbn [ImageDecoderService.step].
    unfold ImageDecoderService.handleWorkerMessage.
    unfold JSMap.has in Hhas.
    by destruct (JSMap.get (ImageDecoderService.id r)
                   (ImageDecoderService.pendingRequests s)). }
  split; [done|]. split; [done|].
  split; reflexivity.
Qed.

(** * Further properties of the modelled code *)

From Stdlib Require Import Qminmax Qround Lqa Sorted.
From stdpp Require Import sorting.

(** ** More about [LRUCache] *)

Section LRUCacheFacts.
Context {K V : Type} `{EqDecision K}.
Variable isHTMLImageElement : V → bool.

Lemma jsmap_get_snoc (k : K) (v : V) m :
  k ∉ JSMap.keys m → JSMap.get k (m ++ [(k, v)]) = Some v.
Proof.
  unfold JSMap.keys. induction m as [|[k' v'] r IH]; simpl.
  - intros _. by rewrite decide_True.
  - intros [Hne Hn]%not_elem_of_cons. rewrite decide_False by done. by apply IH.
Qed.

Lemma jsmap_delete_snoc (k : K) (v : V) m :
  k ∉ JSMap.keys m → JSMap.delete k (m ++ [(k, v)]) = m.
Proof.
  unfold JSMap.keys. induction m as [|[k' v'] r IH]; simpl.
  - intros _. by rewrite decide_True.
  - intros [Hne Hn]%not_elem_of_cons. rewrite decide_False by done.
    by rewrite IH.
Qed.

Lemma jsmap_delete_filter (k : K) (m : list (K * V)) :
  JSMap.wf m → JSMap.delete k m = filter (λ e, e.1 ≠ k) m.
Proof.
  unfold JSMap.wf, JSMap.keys. induction m as [|[k' v'] r IH]; simpl; [done|].
  intros [Hk Hnd]%NoDup_cons. destruct (decide (k' = k)) as [->|Hne].
  - rewrite filter_cons_False by (simpl; intros ?; done).
    rewrite <- IH by done. symmetry. by apply JSMap.delete_absent.
  - rewrite filter_cons_True by done. by rewrite IH.
Qed.

Lemma lru_run_wf (c : LRUCache.t K V) calls :
  LRUCache.wf c → LRUCache.wf (LRUCache.run isHTMLImageElement c calls).1.
Proof.
  revert c. induction calls as [|o calls IH]; intros c Hwf; [done|].
  simpl. pose proof (LRUCache.step_wf isHTMLImageElement c o Hwf) as Hwf1.
  destruct (LRUCache.step isHTMLImageElement c o) as [c1 r1].
  specialize (IH c1 Hwf1).
  by destruct (LRUCache.run isHTMLImageElement c1 calls).
Qed.

Lemma lru_run_maxSize (c : LRUCache.t K V) calls :
  LRUCache.maxSize (LRUCache.run isHTMLImageElement c calls).1
  = LRUCache.maxSize c.
Proof.
  revert c. induction calls as [|o calls IH]; intros c; [done|].
  simpl. pose proof (LRUCache.step_maxSize isHTMLImageElement c o) as Hm.
  destruct (LRUCache.step isHTMLImageElement c o) as [c1 r1].
  specialize (IH c1).
  destruct (LRUCache.run isHTMLImageElement c1 calls). simpl in *. congruence.
Qed.

(** After [set(k, v)] the entry [(k, v)] is the last one, once. *)
Lemma lru_set_shape k v (c : LRUCache.t K V) :
  LRUCache.wf c →
  ∃ m, LRUCache.cache (LRUCache.set isHTMLImageElement k v c).1 = m ++ [(k, v)]
       ∧ (k ∉ JSMap.keys m) ∧ JSMap.wf m ∧
       (∀ k', k' ∈ JSMap.keys m → k' ∈ JSMap.keys (LRUCache.cache c)).
Proof.
  intros Hwf. destruct (LRUCache.has k c) eqn:Hhas.
  - rewrite LRUCache.set_present by done.
    exists (JSMap.delete k (LRUCache.cache c)). split; [done|].
    split; [by apply JSMap.delete_not_in|].
    split; [by apply JSMap.delete_wf|].
    intros k'. apply JSMap.keys_delete_subseteq.
  - pose proof Hhas as Habs. apply JSMap.has_false_iff in Habs.
    destruct (Nat.leb_spec (LRUCache.maxSize c) (length (LRUCache.cache c)))
      as [Hfull|Hroom].
    + destruct (LRUCache.cache c) as [|[k0 v0] r] eqn:Hc.
      * exists []. unfold LRUCache.set. fold (LRUCache.has k c).
        rewrite Hhas, Hc. simpl.
        destruct (LRUCache.maxSize c <=? 0); simpl;
          (split; [done|]; split; [apply not_elem_of_nil|];
           split; [apply NoDup_nil_2 | done]).
      * rewrite (LRUCache.set_new_full _ k v c k0 v0 r)
          by (done || (rewrite Hc; done)).
        unfold LRUCache.wf, JSMap.wf, JSMap.keys in *. rewrite Hc in Hwf.
        simpl in Hwf, Habs. apply NoDup_cons in Hwf as [_ Hwf].
        apply not_elem_of_cons in Habs as [_ Habs].
        exists r. split; [done|]. split; [done|]. split; [done|].
        intros k' Hk'. by right.
    + rewrite LRUCache.set_new_room by done.
      exists (LRUCache.cache c). done.
Qed.

(** The cache reached from [new LRUCache(n)] by a sequence of method calls. *)
Definition lruAfter (n : nat) (calls : list (LRUCache.call K V)) : LRUCache.t K V :=
  (LRUCache.run isHTMLImageElement (LRUCache.new n) calls).1.

Lemma lruAfter_wf n calls : LRUCache.wf (lruAfter n calls).
Proof. apply lru_run_wf. apply NoDup_nil_2. Qed.

Lemma lruAfter_maxSize n calls : LRUCache.maxSize (lruAfter n calls) = n.
Proof. unfold lruAfter. by rewrite lru_run_maxSize. Qed.

(** X1.  A cache of capacity at least 1 never holds more than [maxSize]
    entries and never holds a key twice, whatever sequence of [set], [get],
    [has], [delete] and [clear] calls it has received. *)
Theorem lru_bound_under_all_calls (n : nat) (calls : list (LRUCache.call K V)) :
  1 ≤ n →
  LRUCache.size (lruAfter n calls) ≤ n ∧
  NoDup (LRUCache.keys (lruAfter n calls)).
Proof.
  intros Hn.
  destruct (LRUCache.run_invariant isHTMLImageElement (LRUCache.new n) calls)
    as (Hwf & Hm & Hle);
    [apply NoDup_nil_2 | done | unfold LRUCache.size; simpl; lia |].
  change (LRUCache.maxSize (LRUCache.new n)) with n in Hle.
  split; [exact Hle | exact Hwf].
Qed.

(** X2.  [get] after [set] returns the value that was set and leaves the
    cache as [set] left it (the entry is already the most recently used
    one); [get] of a key the cache does not hold returns [undefined] and
    changes nothing. *)
Theorem lru_get_after_set (n : nat) (calls : list (LRUCache.call K V))
    (k : K) (v : V) :
  let c := lruAfter n calls in
  let c1 := (LRUCache.set isHTMLImageElement k v c).1 in
  LRUCache.get k c1 = (Some v, c1) ∧
  LRUCache.has k c1 = true ∧
  (LRUCache.has k c = false → LRUCache.get k c = (None, c)).
Proof.
  intros c c1.
  destruct (lru_set_shape k v c (lruAfter_wf n calls)) as (m & Hm & Hk & Hwf & _).
  fold c1 in Hm.
  assert (JSMap.get k (LRUCache.cache c1) = Some v) as Hget.
  { rewrite Hm. by apply jsmap_get_snoc. }
  split; [|split].
  - unfold LRUCache.get. rewrite Hget. f_equal.
    rewrite Hm, jsmap_delete_snoc by done.
    rewrite JSMap.set_absent by done. rewrite <- Hm. by destruct c1.
  - unfold LRUCache.has, JSMap.has. by rewrite Hget.
  - intros Hhas. unfold LRUCache.get, LRUCache.has, JSMap.has in *.
    by destruct (JSMap.get k (LRUCache.cache c)).
Qed.

(** X3.  [delete(k)] returns whether the cache held [k]; afterwards the cache
    does not hold [k], the other entries are there in their order, the count
    dropped by one exactly when [k] was held, and the image removed (if any)
    is the only one cleaned up. *)
Theorem lru_delete_removes (n : nat) (calls : list (LRUCache.call K V)) (k : K) :
  let c := lruAfter n calls in
  let '(found, c', released) := LRUCache.delete isHTMLImageElement k c in
  found = LRUCache.has k c ∧
  LRUCache.has k c' = false ∧
  LRUCache.cache c' = filter (λ e, e.1 ≠ k) (LRUCache.cache c) ∧
  LRUCache.size c = LRUCache.size c' + (if found then 1 else 0) ∧
  released = match JSMap.get k (LRUCache.cache c) with
             | Some v => if isHTMLImageElement v then [v] else []
             | None => []
             end.
Proof.
  intros c. pose proof (lruAfter_wf n calls) as Hwf. fold c in Hwf.
  unfold LRUCache.delete. cbn [LRUCache.cache LRUCache.has LRUCache.size].
  split; [done|]. split; [|split; [|split]].
  - unfold LRUCache.has. cbn [LRUCache.cache].
    apply JSMap.has_false_iff. by apply JSMap.delete_not_in.
  - by apply jsmap_delete_filter.
  - destruct (JSMap.has k (LRUCache.cache c)) eqn:Hhas.
    + apply JSMap.has_true_iff, JSMap.length_delete_present in Hhas.
      unfold LRUCache.size. cbn [LRUCache.cache]. lia.
    + apply JSMap.has_false_iff in Hhas. rewrite JSMap.delete_absent by done.
      unfold LRUCache.size. cbn [LRUCache.cache]. lia.
  - unfold LRUCache.cleanup. by destruct (JSMap.get k (LRUCache.cache c)).
Qed.

(** X4.  In a cache of capacity at least 2, an entry that was just refreshed
    (read by a [get] that hit, or written by [set]) survives the next [set],
    whatever key that one stores. *)
Theorem lru_refreshed_entry_survives (n : nat)
    (calls : list (LRUCache.call K V)) (k k' : K) (v v' : V) :
  2 ≤ n →
  let c := lruAfter n calls in
  (LRUCache.has k c = true →
   LRUCache.has k
     (LRUCache.set isHTMLImageElement k' v' (LRUCache.get k c).2).1 = true) ∧
  LRUCache.has k
    (LRUCache.set isHTMLImageElement k' v'
       (LRUCache.set isHTMLImageElement k v c).1).1 = true.
Proof.
  intros Hn c.
  pose proof (lruAfter_wf n calls) as Hwf. fold c in Hwf.
  pose proof (lruAfter_maxSize n calls) as Hmax. fold c in Hmax.
  (* a cache whose last entry is [k] keeps [k] through the next [set] *)
  assert (∀ c1 : LRUCache.t K V, LRUCache.wf c1 → LRUCache.maxSize c1 = n →
            (∃ m w, LRUCache.cache c1 = m ++ [(k, w)]) →
            LRUCache.has k (LRUCache.set isHTMLImageElement k' v' c1).1 = true)
    as Hkeep.
  { intros c1 Hwf1 Hmax1 (m & w & Hc1).
    destruct (decide (k' = k)) as [->|Hne].
    { destruct (lru_set_shape k v' c1 Hwf1) as (m' & Hm' & _).
      apply JSMap.has_true_iff. unfold JSMap.keys. rewrite Hm', fmap_app.
      apply elem_of_app. right. by left. }
    assert (k ∈ JSMap.keys (LRUCache.cache c1)) as Hin.
    { unfold JSMap.keys. rewrite Hc1, fmap_app. apply elem_of_app. right. by left. }
    apply JSMap.has_true_iff.
    destruct (LRUCache.has k' c1) eqn:Hhas.
    - rewrite LRUCache.set_present by done. cbn [fst LRUCache.cache].
      unfold JSMap.keys. rewrite fmap_app. apply elem_of_app. left.
      rewrite jsmap_delete_filter by done.
      apply list_elem_of_fmap. exists (k, w). split; [done|].
      apply list_elem_of_filter. split; [simpl; congruence|].
      rewrite Hc1. apply elem_of_app. right. by left.
    - destruct (Nat.leb_spec (LRUCache.maxSize c1) (length (LRUCache.cache c1)))
        as [Hfull|Hroom].
      + destruct m as [|[k0 v0] r].
        { rewrite Hc1 in Hfull. simpl in Hfull. lia. }
        rewrite (LRUCache.set_new_full _ k' v' c1 k0 v0 (r ++ [(k, w)]))
          by done.
        cbn [fst LRUCache.cache]. unfold JSMap.keys. rewrite !fmap_app.
        apply elem_of_app. left. apply elem_of_app. right. by left.
      + rewrite LRUCache.set_new_room by done. cbn [fst LRUCache.cache].
        unfold JSMap.keys in *. rewrite fmap_app. apply elem_of_app. by left. }
  split.
  - intros Hhas. apply Hkeep.
    + by apply LRUCache.get_wf.
    + unfold LRUCache.get. by destruct (JSMap.get k (LRUCache.cache c)).
    + unfold LRUCache.get, LRUCache.has, JSMap.has in *.
      destruct (JSMap.get k (LRUCache.cache c)) as [w|] eqn:Hg; [|done].
      exists (JSMap.delete k (LRUCache.cache c)), w. cbn [snd LRUCache.cache].
      apply JSMap.set_absent. by apply JSMap.delete_not_in.
  - apply Hkeep.
    + by apply LRUCache.set_wf.
    + by rewrite LRUCache.set_maxSize.
    + destruct (lru_set_shape k v c Hwf) as (m & Hm & _). by exists m, v.
Qed.

End LRUCacheFacts.

Lemma lru_bound_under_all_calls_witness :
  LRUCache.size
    (lruAfter instanceofHTMLImageElement 2
       [LRUCache.CallSet "a" 1; LRUCache.CallSet "b" 2; LRUCache.CallGet "a";
        LRUCache.CallSet "c" 3; LRUCache.CallDelete "x"; LRUCache.CallSet "d" 4])
  ≤ 2.
Proof.
  apply (lru_bound_under_all_calls instanceofHTMLImageElement 2
           [LRUCache.CallSet "a" 1; LRUCache.CallSet "b" 2; LRUCache.CallGet "a";
            LRUCache.CallSet "c" 3; LRUCache.CallDelete "x";
            LRUCache.CallSet "d" 4]).
  lia.
Defined.

Lemma lru_refreshed_entry_survives_witness :
  LRUCache.has "a"
    (LRUCache.set instanceofHTMLImageElement "c" 3
       (LRUCache.set instanceofHTMLImageElement "a" 7
          (lruAfter instanceofHTMLImageElement 2
             [LRUCache.CallSet "a" 1; LRUCache.CallSet "b" 2])).1).1 = true.
Proof.
  apply (lru_refreshed_entry_survives instanceofHTMLImageElement 2
           [LRUCache.CallSet "a" 1; LRUCache.CallSet "b" 2] "a" "c" 7 3).
  lia.
Defined.

(** Storing new keys one after the other: the cache is a sliding window. *)
Lemma setAll_new_keys l (c : LRUCache.t string HTMLImageElement) :
  LRUCache.wf c → 1 ≤ LRUCache.maxSize c →
  LRUCache.size c ≤ LRUCache.maxSize c →
  NoDup (l.*1) → (∀ k, k ∈ l.*1 → k ∉ JSMap.keys (LRUCache.cache c)) →
  LRUCache.cache (setAll l c)
  = drop (LRUCache.size c + length l - LRUCache.maxSize c) (LRUCache.cache c ++ l).
Proof.
  revert c. induction l as [|[k v] l IH]; intros c Hwf Hpos Hle Hnd Hdisj.
  { simpl. rewrite app_nil_r. replace (_ + 0 - _) with 0 by (unfold LRUCache.size in *; lia).
    done. }
  rewrite setAll_cons. simpl in Hnd. apply NoDup_cons in Hnd as [Hk Hnd].
  assert (LRUCache.has k c = false) as Hhas.
  { apply JSMap.has_false_iff, Hdisj. by left. }
  pose proof (LRUCache.set_wf instanceofHTMLImageElement k v c Hwf) as Hwf1.
  pose proof (LRUCache.set_maxSize instanceofHTMLImageElement k v c) as Hm1.
  pose proof (LRUCache.set_size_le instanceofHTMLImageElement k v c Hwf Hpos Hle)
    as Hle1.
  fold (imageCacheSet k v c) in Hwf1, Hm1, Hle1.
  unfold LRUCache.size in *.
  destruct (Nat.leb_spec (LRUCache.maxSize c) (length (LRUCache.cache c)))
    as [Hfull|Hroom].
  - destruct (LRUCache.cache c) as [|[k0 v0] r] eqn:Hc; [simpl in *; lia|].
    assert (imageCacheSet k v c =
            ({| LRUCache.cache := r ++ [(k, v)];
                LRUCache.maxSize := LRUCache.maxSize c |}, [v0])) as Hset.
    { apply (set_eviction_releases_once k v c k0 v0 r);
        [done | done | rewrite Hc; done | done]. }
    rewrite IH; [| done | lia | lia | done |].
    + rewrite Hm1, Hset. cbn [fst LRUCache.cache]. rewrite length_app.
      simpl in *. rewrite <- app_assoc. simpl.
      replace (length r + 1 + length l - LRUCache.maxSize c) with (length l) by lia.
      replace (S (length r + S (length l)) - LRUCache.maxSize c)
        with (S (length l)) by lia.
      done.
    + intros k' Hk'. rewrite Hset. cbn [fst LRUCache.cache].
      unfold JSMap.keys. rewrite fmap_app. apply not_elem_of_app. split.
      * assert (k' ∉ JSMap.keys ((k0, v0) :: r)) as Hn
          by (apply Hdisj; by right).
        unfold JSMap.keys in Hn. simpl in Hn.
        by apply not_elem_of_cons in Hn as [_ ?].
      * simpl. apply not_elem_of_cons. split; [|apply not_elem_of_nil].
        intros ->. done.
  - assert (imageCacheSet k v c =
            ({| LRUCache.cache := LRUCache.cache c ++ [(k, v)];
                LRUCache.maxSize := LRUCache.maxSize c |}, [])) as Hset.
    { unfold imageCacheSet. by apply LRUCache.set_new_room. }
    rewrite IH; [| done | lia | lia | done |].
    + rewrite Hm1, Hset. cbn [fst LRUCache.cache]. rewrite length_app.
      simpl. rewrite <- app_assoc. simpl. f_equal. lia.
    + intros k' Hk'. rewrite Hset. cbn [fst LRUCache.cache].
      unfold JSMap.keys. rewrite fmap_app. apply not_elem_of_app. split.
      * apply Hdisj. by right.
      * simpl. apply not_elem_of_cons. split; [|apply not_elem_of_nil].
        intros ->. done.
Qed.

(** X5.  When entries with pairwise different keys are stored one after the
    other in an empty cache of capacity [n] (at least 1), the cache ends up
    with the last [n] of them, in the order they were stored: without
    refreshes the eviction is first in, first out. *)
Theorem lru_is_fifo_without_refresh (n : nat)
    (l : list (string * HTMLImageElement)) :
  1 ≤ n → NoDup (l.*1) →
  LRUCache.cache (setAll l (LRUCache.new n)) = drop (length l - n) l.
Proof.
  intros Hn Hnd.
  rewrite setAll_new_keys; [done | apply NoDup_nil_2 | done | | done |].
  - unfold LRUCache.size. simpl. lia.
  - intros k _. apply not_elem_of_nil.
Qed.

Lemma lru_is_fifo_without_refresh_witness :
  LRUCache.cache
    (setAll [("a", 1); ("b", 2); ("c", 3); ("d", 4); ("e", 5)] (LRUCache.new 3))
  = [("c", 3); ("d", 4); ("e", 5)].
Proof.
  apply (lru_is_fifo_without_refresh 3
           [("a", 1); ("b", 2); ("c", 3); ("d", 4); ("e", 5)]); [lia|].
  by apply (bool_decide_unpack _).
Defined.

(** X6.  A cache constructed with [maxSize] 0 is not empty after a [set]: it
    holds exactly the entry stored last, one more than its capacity. *)
Theorem lru_capacity_zero_keeps_last (l : list (string * HTMLImageElement))
    (k : string) (v : HTMLImageElement) :
  LRUCache.cache (setAll (l ++ [(k, v)]) (LRUCache.new 0)) = [(k, v)].
Proof.
  assert (∀ (c : LRUCache.t string HTMLImageElement) k v,
            LRUCache.maxSize c = 0 → length (LRUCache.cache c) ≤ 1 →
            (imageCacheSet k v c).1 =
            {| LRUCache.cache := [(k, v)]; LRUCache.maxSize := 0 |}) as Hone.
  { intros [m ms] k1 v1 Hms Hlen. simpl in Hms, Hlen. subst ms.
    unfold imageCacheSet, LRUCache.set. cbn [LRUCache.cache LRUCache.maxSize].
    destruct m as [|[k0 v0] [|? ?]]; [| |simpl in Hlen; lia].
    - reflexivity.
    - unfold JSMap.has. simpl.
      destruct (decide (k0 = k1)) as [->|Hne]; simpl.
      + done.
      + by rewrite ?decide_True. }
  assert (∀ l (c : LRUCache.t string HTMLImageElement),
            LRUCache.maxSize c = 0 → length (LRUCache.cache c) ≤ 1 →
            LRUCache.maxSize (setAll l c) = 0 ∧
            length (LRUCache.cache (setAll l c)) ≤ 1) as Hall.
  { clear l. intros l. induction l as [|[k1 v1] l IH]; intros c Hms Hlen; [done|].
    rewrite setAll_cons. apply IH; rewrite Hone by done; simpl; lia. }
  unfold setAll. rewrite foldl_app. fold (setAll l (LRUCache.new 0)).
  destruct (Hall l (LRUCache.new 0)) as [Hms Hlen]; [done | simpl; lia |].
  cbn [foldl fst snd]. by rewrite Hone.
Qed.

(** ** Scroll direction tracking (useImagePreloader.ts) *)

Module ScrollTracker.

(** [lastScrollY], [scrollDirection] and the timer behind [scrollTimeout]: the
    deadline of the [setTimeout] callback that has neither run nor been
    cleared.  [now] is the clock of the model. *)
Record t := mk {
  lastScrollY : Q;
  scrollDirection : Preloader.ScrollDirection;
  scrollTimeout : option Z;
  now : Z
}.

Definition init : t :=
  {| lastScrollY := 0; scrollDirection := Preloader.idle;
     scrollTimeout := None; now := 0 |}.

Definition IDLE_DELAY : Z := 150.

(** [updateScrollDirection()] for [window.scrollY = currentScrollY]. *)
Definition updateScrollDirection (currentScrollY : Q) (s : t) : t :=
  {| lastScrollY := currentScrollY;
     scrollDirection :=
       if negb (Qle_bool currentScrollY (lastScrollY s)) then Preloader.down
       else if negb (Qle_bool (lastScrollY s) currentScrollY) then Preloader.up
       else scrollDirection s;
     scrollTimeout := Some (now s + IDLE_DELAY)%Z;
     now := now s |}.

(** Time passes; the timer runs when it is due. *)
Definition tick (dt : Z) (s : t) : t :=
  let now' := (now s + Z.max dt 0)%Z in
  match scrollTimeout s with
  | Some deadline =>
      if (deadline <=? now')%Z then
        {| lastScrollY := lastScrollY s; scrollDirection := Preloader.idle;
           scrollTimeout := None; now := now' |}
      else
        {| lastScrollY := lastScrollY s; scrollDirection := scrollDirection s;
           scrollTimeout := Some deadline; now := now' |}
  | None =>
      {| lastScrollY := lastScrollY s; scrollDirection := scrollDirection s;
         scrollTimeout := None; now := now' |}
  end.

Inductive event : Type :=
| ScrollTo (currentScrollY : Q)
| Tick (dt : Z).

Definition step (s : t) (e : event) : t :=
  match e with
  | ScrollTo y => updateScrollDirection y s
  | Tick dt => tick dt s
  end.

Definition run (s : t) (evs : list event) : t := foldl step s evs.

(** A direction other than idle is backed by a timer that is not due yet and
    is due within 150 ms. *)
Definition Backed (s : t) : Prop :=
  match scrollTimeout s with
  | Some deadline => (now s < deadline ≤ now s + IDLE_DELAY)%Z
  | None => scrollDirection s = Preloader.idle
  end.

Lemma step_Backed s e : Backed s → Backed (step s e).
Proof.
  unfold Backed. destruct e as [y|dt]; simpl.
  - intros _. unfold IDLE_DELAY. lia.
  - unfold tick. destruct (scrollTimeout s) as [d|]; simpl.
    + intros Hd. destruct (Z.leb_spec d (now s + Z.max dt 0)); simpl; [done | lia].
    + done.
Qed.

Lemma run_Backed evs s : Backed s → Backed (run s evs).
Proof.
  revert s. induction evs as [|e evs IH]; intros s HB; [done|].
  simpl. by apply IH, step_Backed.
Qed.

(** With no scroll signal, the state at a later time. *)
Lemma ticks_after_scroll dts s deadline :
  scrollTimeout s = Some deadline → (now s < deadline)%Z →
  let s' := run s (Tick <$> dts) in
  (now s ≤ now s')%Z ∧
  ((now s' < deadline)%Z →
     scrollDirection s' = scrollDirection s ∧ scrollTimeout s' = Some deadline) ∧
  ((deadline ≤ now s')%Z →
     scrollDirection s' = Preloader.idle ∧ scrollTimeout s' = None).
Proof.
  revert s. induction dts as [|dt dts IH]; intros s Ht Hlt.
  { simpl. split; [lia|]. split; [done | intros ?; exfalso; lia]. }
  change (run s (Tick <$> dt :: dts)) with (run (tick dt s) (Tick <$> dts)).
  cbv zeta.
  assert (now (tick dt s) = now s + Z.max dt 0)%Z as Hnow.
  { unfold tick. rewrite Ht. by destruct (_ <=? _)%Z. }
  destruct (Z.leb_spec deadline (now s + Z.max dt 0)) as [Hdue|Hnot].
  - (* the timer runs in this tick; later ticks find no timer *)
    assert (∀ l s0, scrollTimeout s0 = None →
              scrollDirection s0 = Preloader.idle →
              (now s0 ≤ now (run s0 (Tick <$> l)))%Z ∧
              scrollDirection (run s0 (Tick <$> l)) = Preloader.idle ∧
              scrollTimeout (run s0 (Tick <$> l)) = None) as Hidle.
    { clear. intros l. induction l as [|dt l IH]; intros s0 Ht Hd; simpl.
      - split; [lia | done].
      - destruct (IH (tick dt s0)) as (Hn & Hd' & Ht').
        + unfold tick. by rewrite Ht.
        + unfold tick. by rewrite Ht.
        + split; [|done]. etrans; [|exact Hn]. unfold tick. rewrite Ht. simpl. lia. }
    destruct (Hidle dts (tick dt s)) as (Hn & Hd & Ht').
    + unfold tick. rewrite Ht.
      by destruct (Z.leb_spec deadline (now s + Z.max dt 0)); [|lia].
    + unfold tick. rewrite Ht.
      by destruct (Z.leb_spec deadline (now s + Z.max dt 0)); [|lia].
    + split; [lia|]. split; [intros ?; exfalso; lia | done].
  - destruct (IH (tick dt s)) as (Hn & Hbefore & Hafter).
    + unfold tick. rewrite Ht.
      by destruct (Z.leb_spec deadline (now s + Z.max dt 0)); [lia|].
    + lia.
    + assert (scrollDirection (tick dt s) = scrollDirection s) as Hdir.
      { unfold tick. rewrite Ht.
        by destruct (Z.leb_spec deadline (now s + Z.max dt 0)); [lia|]. }
      rewrite Hdir in Hbefore. split; [lia|]. done.
Qed.

End ScrollTracker.

(** X7.  After a scroll signal, with no further scroll signal, the direction
    set by that signal is kept as long as less than 150 ms have passed, and it
    is idle once 150 ms have passed, whatever happened before the signal.
    At any time, a direction other than idle is backed by a pending timer that
    is due within 150 ms. *)
Theorem scroll_direction_idle_after_150ms
    (evs : list ScrollTracker.event) (y : Q) (dts : list Z) :
  let s := ScrollTracker.run ScrollTracker.init evs in
  let s1 := ScrollTracker.updateScrollDirection y s in
  let s2 := ScrollTracker.run s1 (ScrollTracker.Tick <$> dts) in
  ((ScrollTracker.now s2 < ScrollTracker.now s1 + 150)%Z →
     ScrollTracker.scrollDirection s2 = ScrollTracker.scrollDirection s1) ∧
  ((ScrollTracker.now s1 + 150 ≤ ScrollTracker.now s2)%Z →
     ScrollTracker.scrollDirection s2 = Preloader.idle) ∧
  (ScrollTracker.scrollDirection s ≠ Preloader.idle →
     ∃ deadline,
       ScrollTracker.scrollTimeout s = Some deadline ∧
       (ScrollTracker.now s < deadline ≤ ScrollTracker.now s + 150)%Z).
Proof.
  intros s s1 s2.
  destruct (ScrollTracker.ticks_after_scroll dts s1
              (ScrollTracker.now s1 + 150)%Z) as (_ & Hbefore & Hafter);
    [done | lia |].
  fold s2 in Hbefore, Hafter.
  split; [intros Hlt; by apply Hbefore|]. split; [intros Hge; by apply Hafter|].
  intros Hdir.
  assert (ScrollTracker.Backed s) as HB.
  { apply ScrollTracker.run_Backed. done. }
  unfold ScrollTracker.Backed in HB.
  destruct (ScrollTracker.scrollTimeout s) as [d|]; [by exists d | done].
Qed.

(** ** Priorities of the hook (useImagePreloader.ts) *)

Module Hook.

Global Instance ScrollDirection_eq_dec : EqDecision Preloader.ScrollDirection.
Proof. solve_decision. Defined.







End Hook.



(** ** The order of the preload queue *)

Module QueueOrder.

(** [a] may stay before [b]: the comparator of [sortQueue] does not return a
    positive number for [(a, b)]. *)
Definition before (a b : Preloader.QueueItem) : Prop :=
  Qle_bool (Preloader.compareFn Preloader.idle a b) 0 = true.

Lemma before_spec a b :
  before a b ↔
  (Preloader.priority b < Preloader.priority a)%Q ∨
  ((Preloader.priority a == Preloader.priority b)%Q ∧
   (Preloader.distance a <= Preloader.distance b)%Q).
Proof.
  unfold before, Preloader.compareFn. rewrite Qle_bool_iff.
  destruct (Qeq_bool (Preloader.priority b - Preloader.priority a) 0) eqn:Hp;
    simpl.
  - apply Qeq_bool_iff in Hp.
    destruct (Qeq_bool (Preloader.distance a - Preloader.distance b) 0) eqn:Hd;
      simpl.
    + apply Qeq_bool_iff in Hd. split; [|intros _; lra].
      intros _. right. split; lra.
    + apply Qeq_bool_neq in Hd. split; [intros ?; right; split; lra|].
      intros [?|[_ ?]]; lra.
  - apply Qeq_bool_neq in Hp. split; [intros ?; left; lra|].
    intros [?|[? _]]; [lra|]. exfalso. apply Hp. lra.
Qed.

Lemma before_total a b : before a b ∨ before b a.
Proof.
  rewrite !before_spec.
  destruct (Q_dec (Preloader.priority a) (Preloader.priority b)) as [[?|?]|Heq];
    [right; by left | left; by left |].
  destruct (Qlt_le_dec (Preloader.distance b) (Preloader.distance a)).
  - right. right. split; [by symmetry | lra].
  - left. right. done.
Qed.

Lemma before_trans a b c : before a b → before b c → before a c.
Proof.
  rewrite !before_spec. intros [?|[H1 ?]] [?|[H2 ?]].
  - left. lra.
  - left. lra.
  - left. lra.
  - right. split; lra.
Qed.

Lemma before_direction dir a b :
  Qle_bool (Preloader.compareFn dir a b) 0 = true ↔ before a b.
Proof.
  unfold before. by rewrite (Qle_bool_Qeq _ _ (compareFn_direction dir a b)).
Qed.

Lemma insertSorted_sorted dir x l :
  StronglySorted before l →
  StronglySorted before (Preloader.insertSorted (Preloader.compareFn dir) x l).
Proof.
  induction 1 as [|y r Hs IH Hall]; simpl.
  - repeat constructor.
  - destruct (Qle_bool _ 0) eqn:Hxy.
    + apply before_direction in Hxy. constructor; [by constructor|].
      constructor; [done|].
      eapply Forall_impl; [exact Hall|]. intros z Hz. by eapply before_trans.
    + constructor; [done|].
      assert (before y x) as Hyx.
      { destruct (before_total x y) as [Hb|Hb]; [|done].
        apply (before_direction dir) in Hb. congruence. }
      rewrite Preloader.insertSorted_perm. by constructor.
Qed.

Lemma sortBy_sorted dir l :
  StronglySorted before (Preloader.sortBy (Preloader.compareFn dir) l).
Proof.
  induction l as [|x l IH]; simpl; [constructor|]. by apply insertSorted_sorted.
Qed.

(** Sorting a list that is in order changes nothing. *)
Lemma sortBy_sorted_id dir l :
  StronglySorted before l → Preloader.sortBy (Preloader.compareFn dir) l = l.
Proof.
  induction 1 as [|y r Hs IH Hall]; simpl; [done|]. rewrite IH.
  destruct r as [|z r']; simpl; [done|].
  apply Forall_cons in Hall as [Hyz _].
  apply (before_direction dir) in Hyz. by rewrite Hyz.
Qed.

Lemma processQueue_sorted now w :
  StronglySorted before (Preloader.queue w) →
  StronglySorted before (Preloader.queue (Preloader.processQueue now w)).
Proof.
  intros Hs.
  destruct (Preloader.processQueue_cases now w)
    as [-> | [(item & rest & Hq & _ & ->) | (item & rest & Hq & _ & _ & ->)]];
    [done | |]; rewrite Hq in Hs; simpl; by apply StronglySorted_inv in Hs as [? _].
Qed.

Lemma step_sorted w e :
  StronglySorted before (Preloader.queue w) →
  StronglySorted before (Preloader.queue (Preloader.step w e)).
Proof.
  intros Hs. destruct e as [u p d now|now|u outcome|dir|u|u|]; simpl; try done.
  - unfold Preloader.add. destruct (_ || _); [done|].
    apply processQueue_sorted. simpl. apply sortBy_sorted.
  - by apply processQueue_sorted.
  - unfold Preloader.settled. by destruct (bool_decide _).
  - constructor.
Qed.

Lemma run_sorted evs w :
  StronglySorted before (Preloader.queue w) →
  StronglySorted before (Preloader.queue (Preloader.run w evs)).
Proof.
  revert w. induction evs as [|e evs IH]; intros w Hs; [done|].
  simpl. by apply IH, step_sorted.
Qed.

End QueueOrder.

(** X9.  In every reachable state the pending queue is in dispatch order: an
    item is followed only by items of lower priority, or of the same priority
    and at least its distance.  So the item [processQueue] takes next has the
    highest priority of all pending items and, among those of that priority,
    the smallest distance. *)
Theorem queue_is_sorted_by_priority_then_distance (evs : list Preloader.event) :
  let w := Preloader.run Preloader.init evs in
  StronglySorted QueueOrder.before (Preloader.queue w) ∧
  ∀ head rest, Preloader.queue w = head :: rest →
    ∀ item, item ∈ rest →
      (Preloader.priority item <= Preloader.priority head)%Q ∧
      ((Preloader.priority item == Preloader.priority head)%Q →
       (Preloader.distance head <= Preloader.distance item)%Q).
Proof.
  intros w.
  assert (StronglySorted QueueOrder.before (Preloader.queue w)) as Hs.
  { apply QueueOrder.run_sorted. constructor. }
  split; [done|]. intros head rest Hq item Hin. rewrite Hq in Hs.
  apply StronglySorted_inv in Hs as [_ Hall].
  rewrite Forall_forall in Hall. specialize (Hall item Hin).
  apply QueueOrder.before_spec in Hall. split.
  - destruct Hall as [?|[? _]]; lra.
  - intros Heq. destruct Hall as [?|[_ ?]]; [lra | done].
Qed.

(** ** What [processQueue] hands to the decoder, and when *)

Module QueueDiscipline.

(** A step hands a key to the decoder under these conditions only. *)
Definition Handed (u : string) (w w' : Preloader.World) : Prop :=
  Preloader.dispatched w' = Preloader.dispatched w ++ [u] ∧
  LRUCache.has u (Preloader.imageCache w) = false ∧
  (u ∉ Preloader.loading w) ∧
  size (Preloader.loading w) < Preloader.maxConcurrent ∧
  Preloader.loading w' = {[u]} ∪ Preloader.loading w ∧
  (Preloader.lastProcessTime w + Preloader.throttleDelay
   ≤ Preloader.lastProcessTime w')%Z.

Definition Paced (w w' : Preloader.World) : Prop :=
  Preloader.lastProcessTime w' = Preloader.lastProcessTime w ∨
  (Preloader.lastProcessTime w + Preloader.throttleDelay
   ≤ Preloader.lastProcessTime w')%Z.

Lemma processQueue_discipline now w0 w :
  Preloader.Inv w →
  Preloader.dispatched w = Preloader.dispatched w0 →
  Preloader.loading w = Preloader.loading w0 →
  Preloader.imageCache w = Preloader.imageCache w0 →
  Preloader.lastProcessTime w = Preloader.lastProcessTime w0 →
  let w' := Preloader.processQueue now w in
  Paced w0 w' ∧
  (Preloader.dispatched w' = Preloader.dispatched w0 ∨
   ∃ u, Handed u w0 w').
Proof.
  intros [Hnd Hnl Hsz] Hd Hl Hc Ht w'. unfold w', Preloader.processQueue.
  unfold Paced, Handed. rewrite <- Hd, <- Hl, <- Hc, <- Ht.
  destruct (Z.ltb_spec (now - Preloader.lastProcessTime w)
              Preloader.throttleDelay) as [Hthr|Hok]; [split; by left|].
  destruct (Nat.leb_spec Preloader.maxConcurrent (size (Preloader.loading w)))
    as [Hfull|Hroom]; simpl; [split; by left|].
  destruct (Preloader.queue w) as [|item rest] eqn:Hq; simpl; [split; by left|].
  destruct (LRUCache.has (Preloader.url item) (Preloader.imageCache w)) eqn:Hhas;
    simpl.
  - split; [right; lia | by left].
  - split; [right; lia|]. right. exists (Preloader.url item).
    split; [done|]. split; [done|]. split; [apply Hnl; by left|].
    split; [done|]. split; [done|]. lia.
Qed.

End QueueDiscipline.

(** X10.  Every step of the queue hands at most one key to the decoder, and
    only a key that is not in the image cache and not loading, while fewer
    than [maxConcurrent] keys are loading, and not earlier than
    [throttleDelay] = 100 ms after the previous run of [processQueue] that
    took an item; [lastProcessTime] never moves by less than 100 ms. *)
Theorem dispatch_is_guarded_and_paced
    (evs : list Preloader.event) (e : Preloader.event) :
  let w := Preloader.run Preloader.init evs in
  let w' := Preloader.step w e in
  Preloader.throttleDelay = 100%Z ∧
  QueueDiscipline.Paced w w' ∧
  (Preloader.dispatched w' = Preloader.dispatched w ∨
   ∃ u, QueueDiscipline.Handed u w w').
Proof.
  intros w w'. split; [done|].
  pose proof (Preloader.queue_run_Inv evs _ Preloader.init_Inv) as HI.
  fold w in HI. unfold w'.
  destruct e as [u p d now|now|u outcome|dir|u|u|]; simpl.
  - unfold Preloader.add.
    destruct (bool_decide (u ∈ Preloader.loading w)) eqn:Hl; simpl;
      [split; by left|].
    destruct (LRUCache.has u (Preloader.imageCache w)); [split; by left|].
    apply bool_decide_eq_false in Hl.
    by apply (QueueDiscipline.processQueue_discipline now w
                (Preloader.enqueued u p d w));
      [apply Preloader.enqueued_Inv| | | |].
  - by apply (QueueDiscipline.processQueue_discipline now w w).
  - unfold Preloader.settled. destruct (bool_decide _); split; by left.
  - split; by left.
  - split; by left.
  - split; by left.
  - split; by left.
Qed.




(** ** The effects of the hook on its caches (useImagePreloader.ts) *)

Section Prune.
Context {K V : Type} `{EqDecision K}.
Variable isHTMLImageElement : V → bool.

Lemma jsmap_get_app_absent (k : K) (m1 m2 : list (K * V)) :
  k ∉ JSMap.keys m1 → JSMap.get k (m1 ++ m2) = JSMap.get k m2.
Proof.
  unfold JSMap.keys. induction m1 as [|[k' v'] r IH]; simpl; [done|].
  intros [Hne Hn]%not_elem_of_cons. rewrite decide_False by done. by apply IH.
Qed.

Lemma jsmap_delete_app_absent (k : K) (m1 m2 : list (K * V)) :
  k ∉ JSMap.keys m1 → JSMap.delete k (m1 ++ m2) = m1 ++ JSMap.delete k m2.
Proof.
  unfold JSMap.keys. induction m1 as [|[k' v'] r IH]; simpl; [done|].
  intros [Hne Hn]%not_elem_of_cons. rewrite decide_False by done.
  by rewrite IH.
Qed.

(** The loop [for (const [key] of cache.entries()) if (!keep(key))
    cache.delete(key)]: deleting the entry the iterator is at does not
    disturb the iteration, which visits the entries of the map in order. *)
Definition pruneCache (keep : K → bool) (c : LRUCache.t K V) :
    LRUCache.t K V * list V :=
  foldl (λ '(c, released) k,
           if keep k then (c, released)
           else let '(_, c', r) := LRUCache.delete isHTMLImageElement k c in
                (c', released ++ r))
    (c, []) (LRUCache.keys c).

Lemma pruneCache_fold (keep : K → bool) (n : nat) (done rest : list (K * V))
    (released : list V) :
  JSMap.wf (done ++ rest) →
  foldl (λ '(c, released) k,
           if keep k then (c, released)
           else let '(_, c', r) := LRUCache.delete isHTMLImageElement k c in
                (c', released ++ r))
    ({| LRUCache.cache := done ++ rest; LRUCache.maxSize := n |}, released)
    (JSMap.keys rest)
  = ({| LRUCache.cache := done ++ filter (λ e, keep e.1 = true) rest;
        LRUCache.maxSize := n |},
     released ++
     flat_map (LRUCache.cleanup isHTMLImageElement)
       (filter (λ e, keep e.1 ≠ true) rest).*2).
Proof.
  revert done released. induction rest as [|[k v] rest IH];
    intros done released Hwf.
  { simpl. by rewrite !app_nil_r. }
  change (JSMap.keys ((k, v) :: rest)) with (k :: JSMap.keys rest).
  cbn [foldl]. cbv beta iota.
  destruct (keep k) eqn:Hk.
  - rewrite filter_cons_True by done.
    rewrite (filter_cons_False (λ e, keep e.1 ≠ true)) by (simpl; congruence).
    replace (done ++ (k, v) :: rest) with ((done ++ [(k, v)]) ++ rest)
      by by rewrite <- app_assoc.
    rewrite (IH (done ++ [(k, v)]) released) by by rewrite <- app_assoc.
    by rewrite <- app_assoc.
  - rewrite filter_cons_False by (simpl; congruence).
    rewrite (filter_cons_True (λ e, keep e.1 ≠ true)) by (simpl; congruence).
    assert (k ∉ JSMap.keys done) as Hfresh.
    { unfold JSMap.wf, JSMap.keys in *. rewrite fmap_app in Hwf.
      apply NoDup_app in Hwf as (_ & Hdisj & _). intros Hin.
      apply (Hdisj k Hin). by left. }
    unfold LRUCache.delete. cbn [LRUCache.cache LRUCache.maxSize].
    rewrite jsmap_get_app_absent, jsmap_delete_app_absent by done.
    cbn [JSMap.get JSMap.delete]. rewrite !decide_True by done.
    rewrite IH.
    + cbn [fmap list_fmap snd flat_map]. by rewrite <- app_assoc.
    + unfold JSMap.wf, JSMap.keys in *. rewrite fmap_app in *.
      cbn [fmap list_fmap] in Hwf.
      apply NoDup_app in Hwf as (Hd & Hdisj & Hr).
      apply NoDup_cons in Hr as [_ Hr].
      apply NoDup_app. split; [done|]. split; [|done].
      intros x Hx Hx'. apply (Hdisj x Hx). by right.
Qed.

Lemma pruneCache_filter (keep : K → bool) (c : LRUCache.t K V) :
  LRUCache.wf c →
  pruneCache keep c
  = ({| LRUCache.cache := filter (λ e, keep e.1 = true) (LRUCache.cache c);
        LRUCache.maxSize := LRUCache.maxSize c |},
     flat_map (LRUCache.cleanup isHTMLImageElement)
       (filter (λ e, keep e.1 ≠ true) (LRUCache.cache c)).*2).
Proof.
  intros Hwf. destruct c as [m n].
  exact (pruneCache_fold keep n [] m [] Hwf).
Qed.

End Prune.

Module HookEffects.

(** [ImageItem] is imported from [./useImageStore]; the hook reads its fields
    [id], [type] (image or video), [url] and the optional [posterUrl]. *)
Inductive ItemType : Type := image | video.
Record ImageItem := {
  id : string; type : ItemType; url : string; posterUrl : option string
}.

(** The first loop of the effect that runs when [images] changes:
    [imageCache.delete(url)] for every cached [url] that is not the [url] of
    an image of the list. *)
Definition pruneImageCache (images : list ImageItem)
    (c : LRUCache.t string HTMLImageElement) :
    LRUCache.t string HTMLImageElement * list HTMLImageElement :=
  pruneCache instanceofHTMLImageElement
    (λ u, bool_decide (u ∈ url <$> images)) c.

End HookEffects.

(** X12.  When the list of images changes, the hook keeps in the image cache
    exactly the entries whose key is the [url] of an item of the new list, in
    their order, and resets [src] and [srcset] of every image it removes, once
    each.  A poster cached under the [posterUrl] of a video is removed unless
    that URL is also the [url] of some item. *)
Theorem prune_keeps_current_urls (n : nat)
    (calls : list (LRUCache.call string HTMLImageElement))
    (images : list HookEffects.ImageItem) :
  let c := lruAfter instanceofHTMLImageElement n calls in
  let '(c', released) := HookEffects.pruneImageCache images c in
  LRUCache.cache c'
  = filter (λ e, e.1 ∈ HookEffects.url <$> images) (LRUCache.cache c) ∧
  released
  = (filter (λ e, e.1 ∉ HookEffects.url <$> images) (LRUCache.cache c)).*2 ∧
  LRUCache.maxSize c' = LRUCache.maxSize c ∧
  ∀ u, LRUCache.has u c' = true ↔
       LRUCache.has u c = true ∧ u ∈ HookEffects.url <$> images.
Proof.
  intros c. unfold HookEffects.pruneImageCache.
  pose proof (lruAfter_wf instanceofHTMLImageElement n calls) as Hwf.
  fold c in Hwf. rewrite pruneCache_filter by done.
  assert (filter (λ e : string * HTMLImageElement,
                    bool_decide (e.1 ∈ HookEffects.url <$> images) = true)
            (LRUCache.cache c)
          = filter (λ e, e.1 ∈ HookEffects.url <$> images) (LRUCache.cache c))
    as Hkeep.
  { apply list_filter_iff. intros e. by rewrite bool_decide_eq_true. }
  assert (filter (λ e : string * HTMLImageElement,
                    bool_decide (e.1 ∈ HookEffects.url <$> images) ≠ true)
            (LRUCache.cache c)
          = filter (λ e, e.1 ∉ HookEffects.url <$> images) (LRUCache.cache c))
    as Hdrop.
  { apply list_filter_iff. intros e. by rewrite bool_decide_eq_true. }
  rewrite Hkeep, Hdrop. split; [done|]. split; [|split; [done|]].
  - induction (filter _ (LRUCache.cache c)).*2 as [|v vs IH]; [done|].
    simpl. by rewrite IH.
  - intros u. unfold LRUCache.has. rewrite !JSMap.has_true_iff.
    cbn [LRUCache.cache].
    unfold JSMap.keys. rewrite !list_elem_of_fmap. split.
    + intros (e & -> & [Hin He]%list_elem_of_filter).
      split; [|by apply list_elem_of_fmap]. exists e. by split.
    + intros [(e & -> & He) Hin%list_elem_of_fmap]. exists e. split; [done|].
      apply list_elem_of_filter. by split.
Qed.

(** ** Posters of videos and the first images of the list *)

Section LRUCacheRecency.
Context {K V : Type} `{EqDecision K}.
Variable isHTMLImageElement : V → bool.

(** [get] of the most recently used key changes nothing. *)
Lemma lru_get_last (k : K) (v : V) m (c : LRUCache.t K V) :
  LRUCache.cache c = m ++ [(k, v)] → (k ∉ JSMap.keys m) →
  LRUCache.get k c = (Some v, c).
Proof.
  intros Hc Hk. unfold LRUCache.get.
  rewrite Hc, jsmap_get_snoc, jsmap_delete_snoc by done.
  rewrite JSMap.set_absent by done. rewrite <- Hc. by destruct c.
Qed.

(** A [get] that hits makes its key the most recently used one. *)
Lemma lru_get_hit (k : K) (v : V) (c : LRUCache.t K V) :
  LRUCache.wf c → JSMap.get k (LRUCache.cache c) = Some v →
  LRUCache.get k c
  = (Some v, {| LRUCache.cache := JSMap.delete k (LRUCache.cache c) ++ [(k, v)];
                LRUCache.maxSize := LRUCache.maxSize c |}).
Proof.
  intros Hwf Hg. unfold LRUCache.get. rewrite Hg.
  rewrite JSMap.set_absent by by apply JSMap.delete_not_in. done.
Qed.

End LRUCacheRecency.

Module HookCalls.
Import HookEffects.

(** The flags the hook keeps per video id in [videoCacheMetadata]. *)
Record VideoFlags := { posterLoaded : bool; videoPreloaded : bool }.

Definition VIDEO_METADATA_CACHE_MAX_SIZE : nat := 100.

(** [value instanceof HTMLImageElement] for the flags: never. *)
Definition flagsAreImage (_ : VideoFlags) : bool := false.

(** The image queue with its cache, and [videoCacheMetadata]. *)
Record State := mkState {
  world : Preloader.World;
  videoCacheMetadata : LRUCache.t string VideoFlags
}.

(** [preloadVideoPoster(item, priority)]; [now] is the [Date.now()] of the
    [processQueue] that [preloadQueue.add] may run. *)
Definition preloadVideoPoster (item : ImageItem) (priority : Q) (now : Z)
    (s : State) : State :=
  match type item, posterUrl item with
  | video, Some poster =>
      if bool_decide (poster = EmptyString) then s
      else
        let '(found, cache1) := LRUCache.get (id item) (videoCacheMetadata s) in
        let metadata :=
          match found with
          | Some flags => flags
          | None => {| posterLoaded := false; videoPreloaded := false |}
          end in
        if negb (posterLoaded metadata) then
          {| world := Preloader.add poster priority 0 now (world s);
             videoCacheMetadata :=
               (LRUCache.set flagsAreImage (id item)
                  {| posterLoaded := true;
                     videoPreloaded := videoPreloaded metadata |} cache1).1 |}
        else {| world := world s; videoCacheMetadata := cache1 |}
  | _, _ => s
  end.

(** [item.type === 'video' && item.posterUrl]. *)
Definition hasPoster (item : ImageItem) : bool :=
  match type item, posterUrl item with
  | video, Some poster => negb (bool_decide (poster = EmptyString))
  | _, _ => false
  end.

(** The key under which an item is preloaded: [image.posterUrl || ''] for a
    video and [image.url] for an image. *)
Definition target (item : ImageItem) : string :=
  match type item with
  | video => default EmptyString (posterUrl item)
  | image => url item
  end.

(** [preloadCriticalImages()]; [clock index] is the [Date.now()] of the
    [processQueue] run by the [add] for the image at [index]. *)
Definition preloadCriticalImages (images : list ImageItem)
    (preloadDistance : nat) (clock : nat → Z) (w : Preloader.World) :
    Preloader.World :=
  let criticalCount := min preloadDistance (length images) in
  foldl (λ w '(index, item),
           let priority := (80 + (Z.of_nat criticalCount - Z.of_nat index) * 5)%Z in
           Preloader.add (target item) (inject_Z priority) 0 (clock index) w)
    w (zip (seq 0 criticalCount) (take criticalCount images)).

(** The queue item [preloadCriticalImages] builds for the image at [index]. *)
Definition criticalItem (criticalCount index : nat) (item : ImageItem) :
    Preloader.QueueItem :=
  Preloader.mkItem (target item)
    (inject_Z (80 + (Z.of_nat criticalCount - Z.of_nat index) * 5)) 0.

End HookCalls.

(** Once the flags of the id of [item] are the most recently used entry and
    have [posterLoaded] set, [preloadVideoPoster] does nothing. *)
Lemma preloadVideoPoster_loaded (item : HookEffects.ImageItem) (priority : Q)
    (now : Z) (s : HookCalls.State) m flags :
  LRUCache.cache (HookCalls.videoCacheMetadata s)
  = m ++ [(HookEffects.id item, flags)] →
  (HookEffects.id item ∉ JSMap.keys m) →
  HookCalls.posterLoaded flags = true →
  HookCalls.preloadVideoPoster item priority now s = s.
Proof.
  intros Hc Hk Hloaded. unfold HookCalls.preloadVideoPoster.
  destruct (HookEffects.type item); [done|].
  destruct (HookEffects.posterUrl item) as [poster|]; [|done].
  destruct (bool_decide (poster = EmptyString)); [done|].
  rewrite (lru_get_last _ flags m) by done. rewrite Hloaded. by destruct s.
Qed.

(** X13.  [preloadVideoPoster] is idempotent: a second call for the same item
    (with any priority, at any time) changes neither the queue nor
    [videoCacheMetadata].  After a call for a video with a poster the flags of
    its id have [posterLoaded] set; for any other item the call does
    nothing. *)
Theorem preloadVideoPoster_idempotent
    (calls : list (LRUCache.call string HookCalls.VideoFlags))
    (w : Preloader.World) (item : HookEffects.ImageItem)
    (priority priority' : Q) (now now' : Z) :
  let s := HookCalls.mkState w
             (lruAfter HookCalls.flagsAreImage
                HookCalls.VIDEO_METADATA_CACHE_MAX_SIZE calls) in
  let s1 := HookCalls.preloadVideoPoster item priority now s in
  HookCalls.preloadVideoPoster item priority' now' s1 = s1 ∧
  if HookCalls.hasPoster item then
    ∃ flags,
      JSMap.get (HookEffects.id item)
        (LRUCache.cache (HookCalls.videoCacheMetadata s1)) = Some flags ∧
      HookCalls.posterLoaded flags = true
  else s1 = s.
Proof.
  intros s s1.
  pose proof (lruAfter_wf HookCalls.flagsAreImage
                HookCalls.VIDEO_METADATA_CACHE_MAX_SIZE calls) as Hwf.
  set (c := lruAfter _ _ _) in *.
  (* the flags of a video with a poster end up loaded and most recent *)
  assert (HookCalls.hasPoster item = true →
          ∃ m flags,
            LRUCache.cache (HookCalls.videoCacheMetadata s1)
            = m ++ [(HookEffects.id item, flags)] ∧
            (HookEffects.id item ∉ JSMap.keys m) ∧
            HookCalls.posterLoaded flags = true) as Hshape.
  { unfold s1, HookCalls.preloadVideoPoster, HookCalls.hasPoster.
    destruct (HookEffects.type item); [done|].
    destruct (HookEffects.posterUrl item) as [poster|]; [|done].
    destruct (bool_decide (poster = EmptyString)); [done|]. intros _.
    cbn [HookCalls.videoCacheMetadata s].
    destruct (JSMap.get (HookEffects.id item) (LRUCache.cache c))
      as [flags|] eqn:Hg.
    - rewrite (lru_get_hit _ _ _ Hwf Hg).
      assert (HookEffects.id item
              ∉ JSMap.keys (JSMap.delete (HookEffects.id item) (LRUCache.cache c)))
        as Hout by by apply JSMap.delete_not_in.
      destruct (HookCalls.posterLoaded flags) eqn:Hloaded; cbn [negb].
      + cbn [HookCalls.videoCacheMetadata LRUCache.cache]. by eexists _, _.
      + cbn [HookCalls.videoCacheMetadata].
        match goal with |- context [LRUCache.set ?f ?k ?v ?c1] =>
          destruct (lru_set_shape f k v c1) as (m & Hm & Hk & _)
        end.
        { unfold LRUCache.wf. cbn [LRUCache.cache].
          rewrite <- JSMap.set_absent by done.
          apply JSMap.set_absent_wf; [by apply JSMap.delete_wf | done]. }
        by eexists _, _.
    - assert (LRUCache.get (HookEffects.id item) c = (None, c)) as ->
        by (unfold LRUCache.get; by rewrite Hg).
      cbn [HookCalls.posterLoaded negb HookCalls.videoCacheMetadata].
      match goal with |- context [LRUCache.set ?f ?k ?v ?c1] =>
        destruct (lru_set_shape f k v c1 Hwf) as (m & Hm & Hk & _)
      end.
      by eexists _, _. }
  destruct (HookCalls.hasPoster item) eqn:Hposter.
  - destruct (Hshape eq_refl) as (m & flags & Hm & Hk & Hloaded). split.
    + by apply (preloadVideoPoster_loaded item priority' now' s1 m flags).
    + exists flags. split; [|done]. rewrite Hm. by apply jsmap_get_snoc.
  - assert (s1 = s) as Heq.
    { unfold s1, HookCalls.preloadVideoPoster. unfold HookCalls.hasPoster in Hposter.
      destruct (HookEffects.type item); [done|].
      destruct (HookEffects.posterUrl item) as [poster|]; [|done].
      by destruct (bool_decide (poster = EmptyString)). }
    split; [|done]. rewrite Heq.
    unfold HookCalls.preloadVideoPoster. unfold HookCalls.hasPoster in Hposter.
    destruct (HookEffects.type item); [done|].
    destruct (HookEffects.posterUrl item) as [poster|]; [|done].
    by destruct (bool_decide (poster = EmptyString)).
Qed.

Module CriticalImages.
Import HookEffects HookCalls.

(** The queue once the first critical image was handed to the decoder at
    time [t] and the items [q] wait. *)
Definition dispatchedFirst (t : Z) (first : string) (q : list Preloader.QueueItem) :
    Preloader.World :=
  {| Preloader.imageCache := LRUCache.new IMAGE_CACHE_MAX_SIZE;
     Preloader.scrollDirection := Preloader.idle;
     Preloader.queue := q;
     Preloader.loading := {[first]};
     Preloader.lastProcessTime := t;
     Preloader.loadedImages := ∅;
     Preloader.decoding := [first];
     Preloader.dispatched := [first] |}.

(** The first [add] on the fresh queue dispatches at once. *)
Lemma add_first u p d t :
  (100 ≤ t)%Z → Preloader.add u p d t Preloader.init = dispatchedFirst t u [].
Proof.
  intros Ht. unfold Preloader.add, Preloader.init.
  cbn [Preloader.loading Preloader.imageCache].
  rewrite bool_decide_eq_false_2 by set_solver.
  change (LRUCache.has u (LRUCache.new IMAGE_CACHE_MAX_SIZE)) with false.
  cbn [orb]. unfold Preloader.sortQueue, Preloader.processQueue.
  cbn [Preloader.queue Preloader.lastProcessTime Preloader.loading
       Preloader.scrollDirection Preloader.imageCache Preloader.loadedImages
       Preloader.decoding Preloader.dispatched filter list_filter app
       Preloader.sortBy foldr Preloader.insertSorted Preloader.url].
  unfold Preloader.throttleDelay.
  destruct (Z.ltb_spec (t - 0) 100) as [?|_]; [lia|].
  rewrite size_empty.
  change (LRUCache.has u (LRUCache.new IMAGE_CACHE_MAX_SIZE)) with false.
  cbn. unfold dispatchedFirst. f_equal. set_solver.
Qed.

(** A later [add], less than 100 ms after the dispatch, of a key that is
    new and goes last in the order: the item is appended. *)
Lemma add_later u p d t t' first q :
  (t' - t < 100)%Z → u ≠ first → (u ∉ Preloader.urls q) →
  StronglySorted QueueOrder.before (q ++ [Preloader.mkItem u p d]) →
  Preloader.add u p d t' (dispatchedFirst t first q)
  = dispatchedFirst t first (q ++ [Preloader.mkItem u p d]).
Proof.
  intros Ht Hne Hq Hs. unfold Preloader.add, dispatchedFirst.
  cbn [Preloader.loading Preloader.imageCache].
  rewrite bool_decide_eq_false_2 by set_solver.
  change (LRUCache.has u (LRUCache.new IMAGE_CACHE_MAX_SIZE)) with false.
  cbn [orb]. unfold Preloader.sortQueue, Preloader.processQueue.
  cbn [Preloader.queue Preloader.lastProcessTime Preloader.loading
       Preloader.scrollDirection Preloader.imageCache Preloader.loadedImages
       Preloader.decoding Preloader.dispatched].
  assert (filter (λ item, Preloader.url item ≠ u) q = q) as ->.
  { clear Hs. induction q as [|x q IH]; [done|].
    unfold Preloader.urls in Hq. rewrite fmap_cons in Hq.
    apply not_elem_of_cons in Hq as [Hx Hq].
    rewrite filter_cons_True by done. by rewrite IH. }
  rewrite QueueOrder.sortBy_sorted_id by done.
  unfold Preloader.throttleDelay.
  destruct (Z.ltb_spec (t' - t) 100) as [_|?]; [done | lia].
Qed.

Definition addCritical (criticalCount : nat) (clock : nat → Z)
    (w : Preloader.World) (entry : nat * ImageItem) : Preloader.World :=
  let '(index, item) := entry in
  let priority := (80 + (Z.of_nat criticalCount - Z.of_nat index) * 5)%Z in
  Preloader.add (target item) (inject_Z priority) 0 (clock index) w.

Definition criticalEntry (criticalCount : nat) (entry : nat * ImageItem) :
    Preloader.QueueItem :=
  criticalItem criticalCount entry.1 entry.2.

Lemma critical_rest criticalCount clock first entries q :
  (∀ i, (clock i - clock 0%nat < 100)%Z) →
  NoDup (first :: Preloader.urls q ++ (target <$> entries.*2)) →
  StronglySorted QueueOrder.before (q ++ (criticalEntry criticalCount <$> entries)) →
  foldl (addCritical criticalCount clock) (dispatchedFirst (clock 0) first q) entries
  = dispatchedFirst (clock 0) first (q ++ (criticalEntry criticalCount <$> entries)).
Proof.
  intros Hclock. revert q.
  induction entries as [|[index item] entries IH]; intros q Hnd Hs.
  - by rewrite app_nil_r.
  - cbn [foldl addCritical]. rewrite !fmap_cons in Hnd. rewrite fmap_cons in Hs.
    cbn [snd] in Hnd.
    rewrite cons_middle, app_assoc in Hs.
    apply NoDup_cons in Hnd as [Hfirst Hnd].
    rewrite cons_middle, app_assoc in Hfirst, Hnd.
    rewrite add_later.
    + rewrite IH; [by rewrite <- app_assoc | |].
      * apply NoDup_cons. split; [|].
        -- unfold Preloader.urls. rewrite fmap_app. exact Hfirst.
        -- unfold Preloader.urls. rewrite fmap_app. exact Hnd.
      * exact Hs.
    + apply Hclock.
    + intros Heq. apply Hfirst. rewrite <- Heq. apply elem_of_app. left.
      apply elem_of_app. right. by left.
    + apply NoDup_app in Hnd as [Hnd _]. apply NoDup_app in Hnd as (_ & Hdis & _).
      intros Hin. apply (Hdis _ Hin). by left.
    + by apply StronglySorted_app_1_l in Hs.
Qed.

(** The priorities of the critical items fall with the index. *)
Lemma critical_sorted criticalCount (start : nat) (items : list ImageItem) :
  StronglySorted QueueOrder.before
    (criticalEntry criticalCount <$> zip (seq start (length items)) items).
Proof.
  revert start. induction items as [|item items IH]; intros start.
  - constructor.
  - cbn [length seq zip zip_with fmap list_fmap]. constructor; [apply IH|].
    apply Forall_forall. intros x Hx.
    apply list_elem_of_fmap in Hx as ([index item'] & -> & Hin).
    apply elem_of_zip_l, elem_of_seq in Hin.
    apply QueueOrder.before_spec. left.
    unfold criticalEntry, criticalItem. cbn [fst snd Preloader.priority].
    rewrite <- Zlt_Qlt. lia.
Qed.

End CriticalImages.

(** X14.  [preloadCriticalImages], run on the fresh queue within 100 ms over
    images whose first [preloadDistance] keys are pairwise different, hands
    the first image of the list to the decoder at once (also when its key is
    the empty string of a video without poster) and leaves the other critical
    images pending in list order, with the priorities
    [80 + (criticalCount - index) * 5] and distance 0. *)
Theorem critical_images_first_then_queue
    (first : HookEffects.ImageItem) (rest : list HookEffects.ImageItem)
    (preloadDistance : nat) (clock : nat → Z) :
  1 ≤ preloadDistance →
  NoDup (HookCalls.target <$> take preloadDistance (first :: rest)) →
  (100 ≤ clock 0%nat)%Z →
  (∀ i, (clock i - clock 0%nat < 100)%Z) →
  let criticalCount := min preloadDistance (length (first :: rest)) in
  let w := HookCalls.preloadCriticalImages (first :: rest) preloadDistance
             clock Preloader.init in
  Preloader.dispatched w = [HookCalls.target first] ∧
  Preloader.loading w = {[HookCalls.target first]} ∧
  Preloader.queue w
  = (λ entry, HookCalls.criticalItem criticalCount entry.1 entry.2)
    <$> zip (seq 1 (criticalCount - 1)) (take (criticalCount - 1) rest).
Proof.
  intros Hpd Hnd Hstart Hclock criticalCount w.
  destruct preloadDistance as [|pd]; [lia|].
  assert (criticalCount = S (min pd (length rest))) as Hcc by done.
  assert (take (min pd (length rest)) rest = take pd rest) as Htake.
  { destruct (Nat.min_spec pd (length rest)) as [[_ ->]|[Hle ->]]; [done|].
    rewrite firstn_all. symmetry. by apply take_ge. }
  assert (w = CriticalImages.dispatchedFirst (clock 0) (HookCalls.target first)
                (CriticalImages.criticalEntry criticalCount
                   <$> zip (seq 1 (criticalCount - 1))
                         (take (criticalCount - 1) rest))) as ->.
  { unfold w, HookCalls.preloadCriticalImages. fold criticalCount.
    rewrite Hcc. cbn [seq take zip zip_with foldl]. rewrite <- Hcc.
    replace (S (min pd (length rest)) - 1) with (min pd (length rest)) by lia.
    change (λ w0 '(index, item), _)
      with (CriticalImages.addCritical criticalCount clock).
    change (Preloader.add _ _ _ _ _)
      with (Preloader.add (HookCalls.target first)
              (inject_Z (80 + (Z.of_nat criticalCount - Z.of_nat 0) * 5)) 0
              (clock 0) Preloader.init).
    rewrite CriticalImages.add_first by done.
    rewrite Htake.
    assert (zip (seq 1 (min pd (length rest))) (take pd rest)
            = zip (seq 1 (length (take pd rest))) (take pd rest)) as Hzip
      by by rewrite length_take.
    rewrite Hzip.
    rewrite (CriticalImages.critical_rest criticalCount clock _ _ []); try done.
    - rewrite <- Hzip.
      replace (criticalCount - 1) with (min pd (length rest)) by lia.
      by rewrite Htake.
    - cbn [Preloader.urls fmap list_fmap app].
      rewrite snd_zip by (rewrite length_seq; lia).
      exact Hnd.
    - apply CriticalImages.critical_sorted. }
  done.
Qed.

Lemma critical_images_first_then_queue_witness :
  let a := {| HookEffects.id := "1"; HookEffects.type := HookEffects.image;
              HookEffects.url := "a.png"; HookEffects.posterUrl := None |} in
  let b := {| HookEffects.id := "2"; HookEffects.type := HookEffects.video;
              HookEffects.url := "b.mp4"; HookEffects.posterUrl := None |} in
  let c := {| HookEffects.id := "3"; HookEffects.type := HookEffects.image;
              HookEffects.url := "c.png"; HookEffects.posterUrl := None |} in
  let w := HookCalls.preloadCriticalImages [a; b; c] 6 (λ _, 1000%Z)
             Preloader.init in
  Preloader.dispatched w = ["a.png"] ∧
  Preloader.loading w = {["a.png"]} ∧
  Preloader.queue w
  = [Preloader.mkItem "" (inject_Z 90) 0;
     Preloader.mkItem "c.png" (inject_Z 85) 0].
Proof.
  intros a b c.
  apply (critical_images_first_then_queue a [b; c] 6 (λ _, 1000%Z)).
  - lia.
  - cbn. repeat (apply NoDup_cons; split; [set_solver|]). apply NoDup_nil_2.
  - lia.
  - intros _. lia.
Defined.

(** ** The cache of captured video frames *)

Module VideoFrames.
Import VideoMetadataLRUCache.

(** [const videoFramesCache = new VideoMetadataLRUCache<string, string[]>(100, 50)]. *)
Definition videoFramesCache : t := new 100 50.

(** The largest key length (in bytes) considered below. *)
Definition KEY_BYTES : N := 500000.

(** An entry of the frames cache: its value is an array, its key is not
    longer than [KEY_BYTES]. *)
Definition framesEntry (e : string * value) : Prop :=
  (byteLength e.1 ≤ KEY_BYTES)%N ∧ ∃ frames, e.2 = Frames frames.

(** What [getMemoryUsage] adds up for a map of arrays: the bytes of every key
    and two bytes for every value. *)
Definition keysEstimate (m : list (string * value)) : N :=
  foldr (λ e acc, byteLength e.1 + 2 + acc)%N 0%N m.

(** [set] without the memory pass of [evictIfNeeded]. *)
Definition setByCount (k : string) (v : value) (c : t) : list (string * value) :=
  (if has k c then JSMap.delete k (cache c)
   else evictWhileFull (maxSize c) (cache c)) ++ [(k, v)].

Definition storeFrames (calls : list (string * list string)) (c : t) : t :=
  setAll ((λ kv, (kv.1, Frames kv.2)) <$> calls) c.

(** The invariant of the frames cache. *)
Record FramesInv (c : t) : Prop := {
  frames_wf : wf c;
  frames_maxSize : maxSize c = 100;
  frames_maxMemoryMB : maxMemoryMB c = inject_Z 50;
  frames_size : size c ≤ 100;
  frames_entries : Forall framesEntry (cache c)
}.

Lemma totalSize_keysEstimate m :
  Forall framesEntry m → totalSize m = keysEstimate m.
Proof.
  induction 1 as [|[k v] m [_ [frames Hv]] _ IH]; [done|].
  simpl in Hv. subst v. rewrite totalSize_cons, IH. unfold entryBytes. simpl.
  change (byteLength "{}") with 2%N. lia.
Qed.

Lemma keysEstimate_bound m :
  Forall framesEntry m →
  (keysEstimate m ≤ N.of_nat (length m) * (KEY_BYTES + 2))%N.
Proof.
  induction 1 as [|[k v] m [Hk _] _ IH]; [done|].
  cbn [keysEstimate foldr length fst]. fold (keysEstimate m).
  cbn [fst] in Hk. unfold KEY_BYTES in *. lia.
Qed.

Lemma framesEntry_delete k m :
  Forall framesEntry m → Forall framesEntry (JSMap.delete k m).
Proof.
  induction 1 as [|[k' v] m He Hm IH]; simpl; [constructor|].
  destruct (decide (k' = k)); [done | by constructor].
Qed.

(** With fewer than 100 entries the estimate is below the limit of 50 MB:
    the memory pass does not run. *)
Lemma evictIfNeeded_by_count c :
  FramesInv c → cache (evictIfNeeded c) = evictWhileFull (maxSize c) (cache c).
Proof.
  intros [Hwf Hmax Hmem Hsize Hall]. unfold evictIfNeeded. cbn [cache].
  destruct (evictWhileFull_suffix (maxSize c) (cache c)) as [j Hj].
  pose proof (evictWhileFull_length (maxSize c) (cache c)) as Hlen.
  specialize (Hlen ltac:(lia)).
  destruct (negb _) eqn:Hover; [|done]. exfalso.
  rewrite Hmem in Hover. apply over_limit_iff in Hover.
  assert (Forall framesEntry (evictWhileFull (maxSize c) (cache c))) as Hall1
    by (rewrite Hj; by apply Forall_drop).
  rewrite (totalSize_keysEstimate _ Hall1) in Hover.
  pose proof (keysEstimate_bound _ Hall1) as Hb. unfold KEY_BYTES in Hb. lia.
Qed.

Lemma set_by_count k frames c :
  FramesInv c → cache (set k (Frames frames) c) = setByCount k (Frames frames) c.
Proof.
  intros HI. unfold setByCount. destruct (has k c) eqn:Hhas.
  - apply video_set_present; [by destruct HI | done].
  - rewrite set_new by done. by rewrite evictIfNeeded_by_count.
Qed.

Lemma set_FramesInv k frames c :
  (byteLength k ≤ KEY_BYTES)%N → FramesInv c → FramesInv (set k (Frames frames) c).
Proof.
  intros Hk HI. pose proof (set_by_count k frames c HI) as Hc.
  destruct HI as [Hwf Hmax Hmem Hsize Hall]. split.
  - by apply video_set_wf.
  - by rewrite video_set_maxSize.
  - by rewrite set_maxMemoryMB.
  - rewrite <- Hmax. apply video_set_size_le; [done | lia | lia].
  - rewrite Hc. unfold setByCount. apply Forall_app. split.
    + destruct (has k c); [by apply framesEntry_delete|].
      destruct (evictWhileFull_suffix (maxSize c) (cache c)) as [j ->].
      by apply Forall_drop.
    + constructor; [|constructor]. split; [done | by eexists].
Qed.

Lemma storeFrames_FramesInv calls c :
  Forall (λ kv : string * list string, (byteLength kv.1 ≤ KEY_BYTES)%N) calls →
  FramesInv c → FramesInv (storeFrames calls c).
Proof.
  intros Hcalls. revert c.
  induction Hcalls as [|[k frames] calls Hk _ IH]; intros c HI; [done|].
  apply IH. by apply set_FramesInv.
Qed.

Lemma videoFramesCache_FramesInv : FramesInv videoFramesCache.
Proof.
  split.
  - apply NoDup_nil_2.
  - reflexivity.
  - reflexivity.
  - unfold size. simpl. lia.
  - constructor.
Qed.

End VideoFrames.

(** X15.  The frames cache never runs the memory pass of [evictIfNeeded]:
    the estimate of an array counts two bytes, whatever the frames it holds,
    so with keys of at most 500000 bytes the estimate stays below the limit of
    50 MB and every [set] evicts by count only (at most the oldest entry, when
    100 are held). *)
Theorem frames_cache_evicts_by_count_only
    (calls : list (string * list string)) (k : string) (frames : list string) :
  Forall (λ kv, (VideoMetadataLRUCache.byteLength kv.1 ≤ 500000)%N)
    ((k, frames) :: calls) →
  let c := VideoFrames.storeFrames calls VideoFrames.videoFramesCache in
  VideoMetadataLRUCache.size c ≤ 100 ∧
  VideoMetadataLRUCache.totalSize (VideoMetadataLRUCache.cache c)
  = VideoFrames.keysEstimate (VideoMetadataLRUCache.cache c) ∧
  (VideoMetadataLRUCache.getMemoryUsage c <= 48)%Q ∧
  VideoMetadataLRUCache.cache
    (VideoMetadataLRUCache.set k (VideoMetadataLRUCache.Frames frames) c)
  = VideoFrames.setByCount k (VideoMetadataLRUCache.Frames frames) c.
Proof.
  intros [Hk Hcalls]%Forall_cons c.
  pose proof (VideoFrames.storeFrames_FramesInv calls _ Hcalls
                VideoFrames.videoFramesCache_FramesInv) as HI.
  fold c in HI. pose proof HI as [Hwf Hmax Hmem Hsize Hall].
  split; [done|]. split; [by apply VideoFrames.totalSize_keysEstimate|].
  split; [|by apply VideoFrames.set_by_count].
  unfold VideoMetadataLRUCache.getMemoryUsage.
  apply (VideoMetadataLRUCache.usage_le_iff _ 48).
  rewrite (VideoFrames.totalSize_keysEstimate _ Hall).
  pose proof (VideoFrames.keysEstimate_bound _ Hall) as Hb.
  unfold VideoFrames.KEY_BYTES in Hb.
  unfold VideoMetadataLRUCache.size in Hsize. lia.
Qed.

Lemma frames_cache_evicts_by_count_only_witness :
  let big := VideoMetadataLRUCache.dataUrl (N.to_nat 41943040) in
  let c := VideoFrames.storeFrames [("a.mp4:0.33,0.66", [big; big])]
             VideoFrames.videoFramesCache in
  VideoMetadataLRUCache.size c ≤ 100 ∧
  VideoMetadataLRUCache.totalSize (VideoMetadataLRUCache.cache c)
  = VideoFrames.keysEstimate (VideoMetadataLRUCache.cache c) ∧
  (VideoMetadataLRUCache.getMemoryUsage c <= 48)%Q ∧
  VideoMetadataLRUCache.cache
    (VideoMetadataLRUCache.set "b.mp4:0.5"
       (VideoMetadataLRUCache.Frames [big]) c)
  = VideoFrames.setByCount "b.mp4:0.5" (VideoMetadataLRUCache.Frames [big]) c.
Proof.
  intros big c.
  apply (frames_cache_evicts_by_count_only
           [("a.mp4:0.33,0.66", [big; big])] "b.mp4:0.5" [big]).
  repeat constructor; vm_compute; discriminate.
Defined.

Module VideoUtils.
Import VideoMetadataLRUCache VideoFrames.

(** The cache key [`${videoSrc}:${percentages.join(',')}`] of
    [captureVideoFrames]; every percentage is given by the text that [join]
    prints for it. *)
Definition cacheKey (videoSrc : string) (percentages : list string) : string :=
  videoSrc +:+ ":" +:+ String.concat "," percentages.

(** [captureVideoFrames(videoSrc, percentages)] up to the point where it
    starts to load the video: the promise it returns (still pending when the
    video has to be loaded) and the frames cache. *)
Definition captureVideoFrames (videoSrc : string) (percentages : list string)
    (c : t) : promise value * t :=
  if bool_decide (videoSrc = EmptyString)
  then (Rejected "Video source is empty", c)
  else
    match get (cacheKey videoSrc percentages) c with
    | (Some cached, c') => (Resolved cached, c')
    | (None, c') => (Pending, c')
    end.

(** [cleanupAndResolve()] of a capture that collected [frames]. *)
Definition cleanupAndResolve (videoSrc : string) (percentages : list string)
    (frames : list string) (c : t) : promise value * t :=
  (Resolved (Frames frames),
   set (cacheKey videoSrc percentages) (Frames frames) c).

(** An entry stays in the frames cache while fewer than 100 stores of other
    keys follow it. *)
Lemma frames_survive key frames others :
  ∀ c m1 m2,
    FramesInv c →
    Forall (λ kv : string * list string, (byteLength kv.1 ≤ KEY_BYTES)%N) others →
    (key ∉ others.*1) →
    cache c = m1 ++ (key, Frames frames) :: m2 →
    length m2 + length others ≤ 99 →
    ∃ m1' m2', cache (storeFrames others c) = m1' ++ (key, Frames frames) :: m2'.
Proof.
  induction others as [|[k' frames'] others IH];
    intros c m1 m2 HI Hshort Hkey Hc Hlen; [by exists m1, m2|].
  apply Forall_cons in Hshort as [Hk' Hshort].
  rewrite fmap_cons in Hkey. apply not_elem_of_cons in Hkey as [Hne Hkey].
  cbn [fst] in Hne, Hk'. cbn [length] in Hlen.
  change (storeFrames ((k', frames') :: others) c)
    with (storeFrames others (set k' (Frames frames') c)).
  pose proof (set_FramesInv k' frames' c Hk' HI) as HI'.
  pose proof (set_by_count k' frames' c HI) as Hset.
  destruct HI as [Hwf Hmax Hmem Hsize Hall].
  assert (∃ m1' m2', cache (set k' (Frames frames') c)
                     = m1' ++ (key, Frames frames) :: m2'
                     ∧ length m2' ≤ S (length m2)) as (m1' & m2' & Hc' & Hlen').
  { rewrite Hset. unfold setByCount. destruct (has k' c).
    - rewrite jsmap_delete_filter by done. rewrite Hc, filter_app.
      rewrite filter_cons_True by (simpl; congruence).
      eexists _, (filter _ m2 ++ [(k', Frames frames')]).
      split; [by rewrite <- app_assoc|].
      rewrite length_app. cbn [length].
      pose proof (length_filter (λ e : string * value, e.1 ≠ k') m2). lia.
    - unfold size in Hsize. rewrite Hc, length_app in Hsize.
      cbn [length] in Hsize. rewrite Hmax, Hc.
      destruct (decide (length m1 + S (length m2) = 100)) as [Hfull|Hroom].
      + destruct m1 as [|e m1]; [simpl in Hfull; lia|].
        change ((e :: m1) ++ (key, Frames frames) :: m2)
          with (e :: (m1 ++ (key, Frames frames) :: m2)).
        rewrite evictWhileFull_full
          by (rewrite length_app; cbn [length] in *; lia).
        exists m1, (m2 ++ [(k', Frames frames')]).
        split; [by rewrite <- app_assoc|]. rewrite length_app. simpl. lia.
      + rewrite evictWhileFull_room by (rewrite length_app; simpl; lia).
        exists m1, (m2 ++ [(k', Frames frames')]).
        split; [by rewrite <- app_assoc|]. rewrite length_app. simpl. lia. }
  apply (IH _ m1' m2'); try done. lia.
Qed.

End VideoUtils.

(** X16.  Frames stored by a capture are served from the cache: after
    [cleanupAndResolve] stored the frames of a video, and while at most 99
    captures with other keys stored theirs, [captureVideoFrames] for the same
    source and percentages resolves with exactly these frames without loading
    the video; and it rejects the empty source without touching the cache.
    (Keys of at most 500000 bytes.) *)
Theorem captured_frames_are_served_from_cache
    (calls others : list (string * list string))
    (videoSrc : string) (percentages frames : list string) :
  let key := VideoUtils.cacheKey videoSrc percentages in
  videoSrc ≠ EmptyString →
  Forall (λ kv, (VideoMetadataLRUCache.byteLength kv.1 ≤ 500000)%N)
    ((key, frames) :: calls ++ others) →
  (key ∉ others.*1) →
  length others ≤ 99 →
  let c := VideoFrames.storeFrames calls VideoFrames.videoFramesCache in
  let c1 := (VideoUtils.cleanupAndResolve videoSrc percentages frames c).2 in
  let c2 := VideoFrames.storeFrames others c1 in
  (VideoUtils.captureVideoFrames videoSrc percentages c2).1
  = Resolved (VideoMetadataLRUCache.Frames frames) ∧
  VideoUtils.captureVideoFrames EmptyString percentages c2
  = (Rejected "Video source is empty", c2).
Proof.
  intros key Hsrc [Hkey [Hcalls Hothers]%Forall_app]%Forall_cons Hfresh Hlen
    c c1 c2.
  split; [|done].
  pose proof (VideoFrames.storeFrames_FramesInv calls _ Hcalls
                VideoFrames.videoFramesCache_FramesInv) as HI.
  fold c in HI.
  pose proof (VideoFrames.set_FramesInv key frames c Hkey HI) as HI1.
  pose proof (VideoFrames.set_by_count key frames c HI) as Hc1.
  change (VideoMetadataLRUCache.set key (VideoMetadataLRUCache.Frames frames) c)
    with c1 in HI1, Hc1.
  unfold VideoFrames.setByCount in Hc1.
  destruct (VideoUtils.frames_survive key frames others c1 _ [] HI1 Hothers
              Hfresh Hc1) as (m1 & m2 & Hc2); [simpl; lia|].
  fold c2 in Hc2.
  pose proof (VideoFrames.storeFrames_FramesInv others _ Hothers HI1) as HI2.
  fold c2 in HI2. destruct HI2 as [Hwf2 _ _ _ _].
  unfold VideoUtils.captureVideoFrames.
  rewrite bool_decide_eq_false_2 by done. fold key.
  unfold VideoMetadataLRUCache.get.
  assert (JSMap.get key (VideoMetadataLRUCache.cache c2)
          = Some (VideoMetadataLRUCache.Frames frames)) as ->; [|done].
  rewrite Hc2. unfold VideoMetadataLRUCache.wf, JSMap.wf, JSMap.keys in Hwf2.
  rewrite Hc2, fmap_app in Hwf2. apply NoDup_app in Hwf2 as (_ & Hdis & _).
  rewrite jsmap_get_app_absent.
  - simpl. by rewrite decide_True.
  - intros Hin. apply (Hdis _ Hin). by left.
Qed.

Lemma captured_frames_are_served_from_cache_witness :
  let c := VideoFrames.storeFrames [("a.mp4:0.33,0.66", ["data:a1"; "data:a2"])]
             VideoFrames.videoFramesCache in
  let c1 := (VideoUtils.cleanupAndResolve "b.mp4" ["0.5"] ["data:b"] c).2 in
  let c2 := VideoFrames.storeFrames [("c.mp4:0.1", ["data:c"])] c1 in
  (VideoUtils.captureVideoFrames "b.mp4" ["0.5"] c2).1
  = Resolved (VideoMetadataLRUCache.Frames ["data:b"]) ∧
  VideoUtils.captureVideoFrames EmptyString ["0.5"] c2
  = (Rejected "Video source is empty", c2).
Proof.
  intros c c1 c2.
  apply (captured_frames_are_served_from_cache
           [("a.mp4:0.33,0.66", ["data:a1"; "data:a2"])]
           [("c.mp4:0.1", ["data:c"])] "b.mp4" ["0.5"] ["data:b"]).
  - discriminate.
  - repeat constructor; vm_compute; discriminate.
  - vm_compute. set_solver.
  - simpl. lia.
Defined.

(** ** More about the decoder service *)

Module DecoderFacts.
Import ImageDecoderService.



















End DecoderFacts.







(** ** The worker (imageDecoderWorker.ts) and its round trip *)

Module ImageDecoderWorker.
Import ImageDecoderService.

(** A value that was thrown, or the reason of a rejected promise: an [Error]
    with its message, or any other value. *)
Inductive thrown : Type :=
| ErrorObject (message : string)
| OtherValue.

(** The outcome of an operation that may throw (or of an awaited promise). *)
Inductive outcome (A : Type) : Type :=
| Ok (a : A)
| Throws (e : thrown).
Arguments Ok {A} a.
Arguments Throws {A} e.

Global Instance outcome_ret : MRet outcome := λ A a, Ok a.
Global Instance outcome_bind : MBind outcome := λ A B f x,
  match x with
  | Ok a => f a
  | Throws e => Throws e
  end.

(** The [Response] of [fetch], as far as the worker reads it. *)
Record Response := { ok : bool; status : Z; statusText : string }.

(** What the environment of the worker answers: the response of [fetch] for
    a URL, the reading of its body, the bitmap decoded with the options, and
    for the fallback the loaded image (its size; [None] when [img.onerror]
    fires) and the pixels read from the canvas ([None] when [getContext]
    returns no context). *)
Record environment := {
  supportsCreateImageBitmap : bool;
  fetch : string → outcome Response;
  blob : outcome unit;
  createImageBitmap : option string → outcome ImageBitmap;
  arrayBuffer : outcome unit;
  image : outcome (option (nat * nat));
  pixels : outcome (option (list Z))
}.

(** [if (!response.ok) throw new Error(...)]. *)
Definition checkOk (response : Response) : outcome unit :=
  if ok response then Ok ()
  else Throws (ErrorObject ("Failed to fetch image: " +:+ pretty (status response)
                            +:+ " " +:+ statusText response)).

(** The body of the [try] block of [self.onmessage]: the response it posts,
    unless something throws. *)
Definition decode (request : ImageDecodeRequest) (env : environment) :
    outcome ImageDecodeResponse :=
  if supportsCreateImageBitmap env then
    response ← fetch env (imageUrl request);
    _ ← checkOk response;
    _ ← blob env;
    bitmap ← createImageBitmap env (options request);
    mret {| id := requestId request; success := true;
            imageBitmap := Some bitmap; error := None;
            fallbackImageData := None |}
  else
    response ← fetch env (imageUrl request);
    _ ← checkOk response;
    _ ← arrayBuffer env;
    loaded ← image env;
    match loaded with
    | None => Throws (ErrorObject "Failed to load image")
    | Some (width, height) =>
        data ← pixels env;
        match data with
        | None => Throws (ErrorObject "Failed to get canvas context")
        | Some data =>
            mret {| id := requestId request; success := true;
                    imageBitmap := None; error := None;
                    fallbackImageData :=
                      Some {| fallbackWidth := width; fallbackHeight := height;
                              fallbackData := data |} |}
        end
    end.

(** [self.onmessage]: the one message the worker posts for a request. *)
Definition onmessage (request : ImageDecodeRequest) (env : environment) :
    ImageDecodeResponse :=
  match decode request env with
  | Ok response => response
  | Throws e =>
      {| id := requestId request; success := false; imageBitmap := None;
         error := Some match e with
                       | ErrorObject message => message
                       | OtherValue => "Unknown error occurred"
                       end;
         fallbackImageData := None |}
  end.

(** The [DecodedImageResult] that [handleWorkerMessage] builds from a
    successful response. *)
Definition resultOf (r : ImageDecodeResponse) (ctxOk : bool) : DecodedImageResult :=
  match imageBitmap r, fallbackImageData r with
  | Some b, _ => ResultImageBitmap b
  | None, Some data => if ctxOk then ResultCanvas data else ResultEmpty
  | None, None => ResultEmpty
  end.

(** The worker echoes the id; a success carries a bitmap or pixels, a failure
    carries a message. *)
Lemma onmessage_shape request env :
  let r := onmessage request env in
  id r = requestId request ∧
  (if success r
   then (is_Some (imageBitmap r) ∧ supportsCreateImageBitmap env = true) ∨
        (is_Some (fallbackImageData r) ∧ supportsCreateImageBitmap env = false)
   else is_Some (error r)).
Proof.
  unfold onmessage, decode.
  destruct (supportsCreateImageBitmap env).
  - destruct (fetch env (imageUrl request)) as [response|e]; simpl; [|by eauto].
    unfold checkOk. destruct (ok response); simpl; [|by eauto].
    destruct (blob env) as [[]|e]; simpl; [|by eauto].
    destruct (createImageBitmap env (options request)) as [b|e]; simpl;
      [|by eauto].
    split; [done|]. left. by eauto.
  - destruct (fetch env (imageUrl request)) as [response|e]; simpl; [|by eauto].
    unfold checkOk. destruct (ok response); simpl; [|by eauto].
    destruct (arrayBuffer env) as [[]|e]; simpl; [|by eauto].
    destruct (image env) as [[[w h]|]|e]; simpl; [| by eauto | by eauto].
    destruct (pixels env) as [[data|]|e]; simpl; [| by eauto | by eauto].
    split; [done|]. right. by eauto.
Qed.

End ImageDecoderWorker.

(** X21.  The round trip of a request.  [decodeImage] posts a request with
    a new id; the worker answers it once, with the same id.  If the answer
    arrives before 30000 ms have passed (and nothing else answered, failed or
    terminated meanwhile) it settles the promise of the request: resolved with
    the bitmap or the canvas of the answer, or rejected with the message of the
    worker, and the id leaves the table.  If it arrives later it is ignored:
    the promise stays rejected with "Image decode timeout". *)
Theorem worker_round_trip
    (workerOk el : bool) (evs evs' : list ImageDecoderService.event)
    (url : string) (opts : option string)
    (conv1 conv2 : ImageDecoderService.conversion)
    (env : ImageDecoderWorker.environment) (ctxOk : bool) :
  let s := ImageDecoderService.run (ImageDecoderService.create workerOk el) evs in
  let i := ImageDecoderService.decodeId
             (S (ImageDecoderService.requestIdCounter s)) in
  let p := length (ImageDecoderService.promises s) in
  let request :=
    {| ImageDecoderService.requestId := i;
       ImageDecoderService.imageUrl :=
         ImageDecoderService.processedImageUrl url conv1 s;
       ImageDecoderService.options := opts |} in
  let s1 := ImageDecoderService.step s
              (ImageDecoderService.DecodeImage url opts conv1 conv2) in
  let s2 := ImageDecoderService.run s1 evs' in
  let r := ImageDecoderWorker.onmessage request env in
  let s3 := ImageDecoderService.step s2
              (ImageDecoderService.WorkerMessage r ctxOk) in
  ImageDecoderService.reachesWorker url conv1 s = true →
  forallb (ImageDecoderService.quietFor i) evs' = true →
  last (ImageDecoderService.posted s1) = Some request ∧
  ImageDecoderService.id r = i ∧
  ((ImageDecoderService.now s2
    < ImageDecoderService.now s1 + ImageDecoderService.TIMEOUT)%Z →
   ImageDecoderService.promises s3 !! p
   = Some (if ImageDecoderService.success r
           then Resolved (ImageDecoderWorker.resultOf r ctxOk)
           else Rejected (ImageDecoderService.errorMessage
                            (ImageDecoderService.error r))) ∧
   JSMap.has i (ImageDecoderService.pendingRequests s3) = false) ∧
  ((ImageDecoderService.now s1 + ImageDecoderService.TIMEOUT
    ≤ ImageDecoderService.now s2)%Z →
   s3 = s2 ∧
   ImageDecoderService.promises s3 !! p
   = Some (Rejected "Image decode timeout")).
Proof.
  intros s i p request s1 s2 r s3 Hreach Hquiet.
  assert (ImageDecoderService.Inv s) as HI
    by apply ImageDecoderService.service_run_Inv, ImageDecoderService.create_Inv.
  assert (s1 = ImageDecoderService.decodeImageWorker
                 (ImageDecoderService.processedImageUrl url conv1 s) opts s)
    as Hs1 by by apply ImageDecoderService.decodeImage_reaches.
  destruct (ImageDecoderService.decodeImageWorker_dispatch
              (ImageDecoderService.processedImageUrl url conv1 s) opts s HI)
    as (HL & HT & Hi & Hfresh & Hnow).
  rewrite <- Hs1 in HL, HT, Hi, Hnow. fold i p in HL, HT, Hi, Hfresh.
  rewrite <- Hnow in HT.
  assert (ImageDecoderService.Inv s1) as HI1
    by by apply ImageDecoderService.service_step_Inv.
  destruct (ImageDecoderService.run_target i p
              (ImageDecoderService.now s1 + ImageDecoderService.TIMEOUT)%Z
              evs' s1 HI1 Hi Hquiet)
    as ((HLive & HOut) & _ & _); [| done |].
  { split; [done|]. intros Hle. unfold ImageDecoderService.TIMEOUT in Hle. lia. }
  fold s2 in HLive, HOut.
  destruct (ImageDecoderWorker.onmessage_shape request env) as [Hid _].
  fold r in Hid. cbn [ImageDecoderService.requestId request] in Hid.
  split; [|split; [done|split]].
  - rewrite Hs1. cbn [ImageDecoderService.decodeImageWorker
                      ImageDecoderService.posted].
    by rewrite last_snoc.
  - intros Hlt. destruct (HLive Hlt) as (Hg & Hp & _).
    unfold s3. cbn [ImageDecoderService.step].
    unfold ImageDecoderService.handleWorkerMessage. rewrite Hid, Hg.
    assert (ImageDecoderService.Inv s2) as HI2
      by by apply ImageDecoderService.service_run_Inv.
    destruct HI2.
    destruct (ImageDecoderService.success r); simpl;
      (split; [by apply ImageDecoderService.settle_lookup_pending|]);
      unfold JSMap.has; by rewrite JSMap.get_delete_eq.
  - intros Hge. destruct (HOut Hge) as (Hg & Hp).
    assert (s3 = s2) as ->; [|done].
    unfold s3. cbn [ImageDecoderService.step].
    unfold ImageDecoderService.handleWorkerMessage. by rewrite Hid, Hg.
Qed.

Lemma worker_round_trip_witness :
  let env := {| ImageDecoderWorker.supportsCreateImageBitmap := true;
                ImageDecoderWorker.fetch := λ _,
                  ImageDecoderWorker.Ok
                    {| ImageDecoderWorker.ok := false;
                       ImageDecoderWorker.status := 404;
                       ImageDecoderWorker.statusText := "Not Found" |};
                ImageDecoderWorker.blob := ImageDecoderWorker.Ok ();
                ImageDecoderWorker.createImageBitmap := λ _,
                  ImageDecoderWorker.Throws ImageDecoderWorker.OtherValue;
                ImageDecoderWorker.arrayBuffer := ImageDecoderWorker.Ok ();
                ImageDecoderWorker.image := ImageDecoderWorker.Ok None;
                ImageDecoderWorker.pixels := ImageDecoderWorker.Ok None |} in
  let s1 := ImageDecoderService.step (ImageDecoderService.create true false)
              (ImageDecoderService.DecodeImage "https://example.com/a.png" None
                 (ImageDecoderService.ConversionFailed "")
                 (ImageDecoderService.ConversionFailed "")) in
  let r := ImageDecoderWorker.onmessage
             {| ImageDecoderService.requestId := "decode_1";
                ImageDecoderService.imageUrl := "https://example.com/a.png";
                ImageDecoderService.options := None |} env in
  let s3 := ImageDecoderService.step
              (ImageDecoderService.run s1 [ImageDecoderService.Tick 29999])
              (ImageDecoderService.WorkerMessage r true) in
  ImageDecoderService.promises s3 !! 0
  = Some (Rejected "Failed to fetch image: 404 Not Found").
Proof.
  intros env s1 r s3.
  destruct (worker_round_trip true false [] [ImageDecoderService.Tick 29999]
              "https://example.com/a.png" None
              (ImageDecoderService.ConversionFailed "")
              (ImageDecoderService.ConversionFailed "") env true)
    as (_ & _ & Hin & _); [reflexivity | reflexivity |].
  destruct Hin as [Hp _]; [vm_compute; reflexivity|]. exact Hp.
Defined.

(** ** Video metadata: [getVideoDimensions] *)

Module VideoDimensions.
Import VideoMetadataLRUCache.

(** [getVideoDimensions(videoSrc)] up to the point where it starts to load
    the video: the promise it returns and the metadata cache. *)
Definition getVideoDimensions (videoSrc : string) (c : t) : promise value * t :=
  if bool_decide (videoSrc = EmptyString)
  then (Rejected "Video source is empty", c)
  else
    match get videoSrc c with
    | (Some cached, c') => (Resolved cached, c')
    | (None, c') => (Pending, c')
    end.

(** [x || fallback] on a number. *)
Definition orElse (x fallback : Z) : Z := if (x =? 0)%Z then fallback else x.

(** [generatePoster()] for the video loaded from [videoSrc]; [ctxOk] tells
    whether [canvas.getContext('2d')] returned a context and [posterUrl] is
    the data URL of the canvas. *)
Definition generatePoster (videoSrc : string)
    (videoWidth videoHeight duration : Z) (posterUrl : string) (ctxOk : bool)
    (c : t) : promise value * t :=
  if ctxOk then
    let result := Metadata (orElse videoWidth 640) (orElse videoHeight 360)
                    (orElse duration 0) posterUrl in
    (Resolved result, set videoSrc result c)
  else (Rejected "Could not get canvas context", c).

(** After [set(k, v)] the entry is the last one, whatever was evicted. *)
Lemma video_set_shape k v c :
  wf c → ∃ m, cache (set k v c) = m ++ [(k, v)] ∧ (k ∉ JSMap.keys m).
Proof.
  intros Hwf. destruct (has k c) eqn:Hhas.
  - rewrite video_set_present by done. eexists. split; [done|].
    by apply JSMap.delete_not_in.
  - rewrite set_new by done. eexists. split; [done|].
    destruct (evictIfNeeded_cache c) as [j ->].
    apply keys_drop_absent. by apply JSMap.has_false_iff.
Qed.

Lemma video_get_last k v m c :
  cache c = m ++ [(k, v)] → (k ∉ JSMap.keys m) → get k c = (Some v, c).
Proof.
  intros Hc Hk. unfold get.
  rewrite Hc, jsmap_get_snoc, jsmap_delete_snoc by done.
  rewrite JSMap.set_absent by done. rewrite <- Hc. by destruct c.
Qed.

End VideoDimensions.

(** X22.  Once [generatePoster] has stored the metadata of a video, the next
    [getVideoDimensions] for the same source resolves with exactly the stored
    record without loading the video, whatever the eviction pass of that [set]
    removed, and leaves the cache as it is; the stored width and height are
    never 0. *)
Theorem video_dimensions_served_after_poster
    (calls : list (string * VideoMetadataLRUCache.value)) (videoSrc : string)
    (videoWidth videoHeight duration : Z) (posterUrl : string) :
  videoSrc ≠ EmptyString →
  let c := VideoMetadataLRUCache.setAll calls
             VideoMetadataLRUCache.videoMetadataCache in
  let stored := VideoDimensions.generatePoster videoSrc videoWidth videoHeight
                  duration posterUrl true c in
  VideoDimensions.getVideoDimensions videoSrc stored.2 = stored ∧
  ∃ width height duration',
    stored.1 = Resolved (VideoMetadataLRUCache.Metadata width height duration'
                           posterUrl) ∧
    width ≠ 0%Z ∧ height ≠ 0%Z.
Proof.
  intros Hsrc c stored.
  destruct (VideoMetadataLRUCache.video_setAll_invariant calls
              VideoMetadataLRUCache.videoMetadataCache) as (Hwf & _);
    [apply NoDup_nil_2 | vm_compute; lia | vm_compute; lia |].
  fold c in Hwf. unfold stored, VideoDimensions.generatePoster. cbn [fst snd].
  split.
  - unfold VideoDimensions.getVideoDimensions.
    rewrite bool_decide_eq_false_2 by done.
    match goal with |- context [VideoMetadataLRUCache.set ?k ?v c] =>
      destruct (VideoDimensions.video_set_shape k v c Hwf) as (m & Hm & Hk);
      by rewrite (VideoDimensions.video_get_last k v m _ Hm Hk)
    end.
  - eexists _, _, _. split; [done|]. unfold VideoDimensions.orElse.
    split.
    + destruct (Z.eqb_spec videoWidth 0); [done | done].
    + destruct (Z.eqb_spec videoHeight 0); [done | done].
Qed.

Lemma video_dimensions_served_after_poster_witness :
  let c := VideoMetadataLRUCache.setAll
             [("a.mp4", VideoMetadataLRUCache.Metadata 1920 1080 10 "data:a")]
             VideoMetadataLRUCache.videoMetadataCache in
  let stored := VideoDimensions.generatePoster "b.mp4" 0 0 0 "data:b" true c in
  (VideoDimensions.getVideoDimensions "b.mp4" stored.2).1
  = Resolved (VideoMetadataLRUCache.Metadata 640 360 0 "data:b").
Proof.
  intros c stored.
  destruct (video_dimensions_served_after_poster
              [("a.mp4", VideoMetadataLRUCache.Metadata 1920 1080 10 "data:a")]
              "b.mp4" 0 0 0 "data:b") as [Hget _]; [discriminate|].
  fold c stored in Hget. by rewrite Hget.
Defined.
